(** * ShellSage error interceptor: a shallow embedding and its properties

    The development follows [src/shellsage/error_interceptor.py]:
    Python strings, the bounded command history, the regular expressions
    used to sanitise error output and to slice the assistant's answer,
    the manual-page scanner, the context collectors and the assembly of
    the error context. *)

From Stdlib Require Import ZArith NArith List Bool Lia.
From Stdlib Require Import Strings.String Strings.Ascii.
From stdpp Require Import base option list strings gmap.
From Equations Require Import Equations.
From Equations.Prop Require Import Logic.

Set Default Proof Using "Type".
Local Open Scope nat_scope.

(** ** Python strings *)

(** A Python [str] is a sequence of Unicode code points. *)
Module PyStr.

Definition char := N.
Definition pystr := list char.

(** ASCII literals of the source are written [str "..."]; every character
    of such a literal is its own code point. *)
Definition str (s : string) : pystr :=
  List.map N_of_ascii (list_ascii_of_string s).

Definition eqb (a b : pystr) : bool := bool_decide (a = b).

(** [s.startswith(p)] *)
Fixpoint startswith (p s : pystr) : bool :=
  match p, s with
  | [], _ => true
  | _ :: _, [] => false
  | a :: p', b :: s' => (a =? b)%N && startswith p' s'
  end.

(** [s.find(sub)]: the lowest index where [sub] occurs, [-1] if none. *)
Fixpoint find_from (sub s : pystr) (i : Z) : Z :=
  if startswith sub s then i
  else match s with
       | [] => (-1)%Z
       | _ :: s' => find_from sub s' (i + 1)%Z
       end.

Definition find (s sub : pystr) : Z := find_from sub s 0%Z.

(** [sub in s] *)
Fixpoint contains (sub s : pystr) : bool :=
  startswith sub s ||
  match s with
  | [] => false
  | _ :: s' => contains sub s'
  end.

(** [s[a:b]] with Python's treatment of the bounds: a negative bound counts
    from the end, and both are clamped to [0 .. len(s)]. *)
Definition clamp_index (len i : Z) : Z :=
  if (i <? 0)%Z then Z.max 0 (i + len) else Z.min i len.

Definition slice (s : pystr) (a b : Z) : pystr :=
  let len := Z.of_nat (length s) in
  let a' := clamp_index len a in
  let b' := clamp_index len b in
  take (Z.to_nat (b' - a')) (drop (Z.to_nat a') s).

(** [s[a:]] *)
Definition slice_from (s : pystr) (a : Z) : pystr :=
  drop (Z.to_nat (clamp_index (Z.of_nat (length s)) a)) s.

(** [str.isspace] on one code point: the characters Python's [strip] and
    [split] treat as whitespace. *)
Definition isspace (c : char) : bool :=
  ((9 <=? c) && (c <=? 13) || (28 <=? c) && (c <=? 32) ||
   (c =? 133) || (c =? 160) || (c =? 5760) ||
   (8192 <=? c) && (c <=? 8202) || (c =? 8232) || (c =? 8233) ||
   (c =? 8239) || (c =? 8287) || (c =? 12288))%N.

Fixpoint lstrip (s : pystr) : pystr :=
  match s with
  | [] => []
  | c :: s' => if isspace c then lstrip s' else s
  end.

Definition rstrip (s : pystr) : pystr := reverse (lstrip (reverse s)).

(** [s.strip()] *)
Definition strip (s : pystr) : pystr := rstrip (lstrip s).

(** [sep.join(parts)] *)
Fixpoint join (sep : pystr) (parts : list pystr) : pystr :=
  match parts with
  | [] => []
  | [p] => p
  | p :: rest => p ++ sep ++ join sep rest
  end.

(** [s.split(sep)] for a one-character separator: empty fields are kept. *)
Fixpoint split_on (sep : char) (s : pystr) : list pystr :=
  match s with
  | [] => [[]]
  | c :: s' =>
      if (c =? sep)%N then [] :: split_on sep s'
      else match split_on sep s' with
           | [] => [[c]]
           | w :: ws => (c :: w) :: ws
           end
  end.

(** [s.split()]: fields are maximal runs of non-whitespace. *)
Fixpoint split_ws_aux (cur : pystr) (s : pystr) : list pystr :=
  match s with
  | [] => match cur with [] => [] | _ => [reverse cur] end
  | c :: s' =>
      if isspace c
      then match cur with
           | [] => split_ws_aux [] s'
           | _ => reverse cur :: split_ws_aux [] s'
           end
      else split_ws_aux (c :: cur) s'
  end.

Definition split (s : pystr) : list pystr := split_ws_aux [] s.

Definition LF : char := 10%N.

End PyStr.
Import PyStr.

(** [l[-n:]] for a positive [n]: the last [n] items, all of them when there
    are fewer. *)
Definition lastn {A} (n : nat) (l : list A) : list A := drop (length l - n) l.

(** ** The bounded history: [collections.deque(maxlen=...)] *)
Module Deque.

Record deque (A : Type) := mk { items : list A; maxlen : option nat }.
Arguments mk {A}.
Arguments items {A}.
Arguments maxlen {A}.

Definition empty {A} (m : option nat) : deque A := mk [] m.

(** [d.append(x)]: the item is added on the right; a full bounded deque
    then drops one item from the left. *)
Definition append {A} (d : deque A) (x : A) : deque A :=
  let xs := items d ++ [x] in
  match maxlen d with
  | Some m => if m <? length xs then mk (tail xs) (maxlen d) else mk xs (maxlen d)
  | None => mk xs None
  end.

End Deque.

(** ** Values stored in the context dictionaries *)

Inductive pyval :=
| VStr (s : pystr)
| VInt (z : Z)
| VList (l : list pystr)
| VStrDict (d : list (string * pystr))
| VListDict (d : list (string * list pystr)).

#[global] Instance pyval_eq_dec : EqDecision pyval.
Proof. solve_decision. Defined.

(** ** The interceptor object *)

Record ErrorInterceptor := mkInterceptor {
  command_history : Deque.deque pystr;
  last_command : pystr;
  context_cache : gmap string pyval
}.

(** [ErrorInterceptor.__init__] *)
Definition init : ErrorInterceptor :=
  {| command_history := Deque.empty (Some 20);
     last_command := [];
     context_cache := ∅ |}.

(** The same object with an unbounded history; it is only used to state
    what the bounded history retains. *)
Definition init_unbounded : ErrorInterceptor :=
  {| command_history := Deque.empty None;
     last_command := [];
     context_cache := ∅ |}.

Definition set_last_command (self : ErrorInterceptor) (c : pystr) :=
  {| command_history := command_history self;
     last_command := c;
     context_cache := context_cache self |}.

Definition history_append (self : ErrorInterceptor) (c : pystr) :=
  {| command_history := Deque.append (command_history self) c;
     last_command := last_command self;
     context_cache := context_cache self |}.

(** [run_command], lines 28-32: the command words are joined, recorded as
    the last command and appended to the history unless the history is
    non-empty and ends with the same text. *)
Definition run_command_record (self : ErrorInterceptor) (command : list pystr)
  : ErrorInterceptor :=
  let full_cmd := join (str " ") command in
  let self := set_last_command self full_cmd in
  let h := Deque.items (command_history self) in
  if (match h with
      | [] => true
      | _ :: _ => negb (eqb full_cmd (List.last h []))
      end)
  then history_append self full_cmd
  else self.

(** [auto_analyze], lines 56-57. *)
Definition auto_analyze_record (self : ErrorInterceptor) (command : pystr)
  : ErrorInterceptor :=
  let self := set_last_command self command in
  history_append self command.

(** A command submission reaches the history through one of the two entry
    points. *)
Inductive submission :=
| ViaRun (command : list pystr)
| ViaAuto (command : pystr) (exit_code : Z).

Definition submitted (ev : submission) : pystr :=
  match ev with
  | ViaRun command => join (str " ") command
  | ViaAuto command _ => command
  end.

Definition submit (self : ErrorInterceptor) (ev : submission) : ErrorInterceptor :=
  match ev with
  | ViaRun command => run_command_record self command
  | ViaAuto command _ => auto_analyze_record self command
  end.

Definition submit_all (self : ErrorInterceptor) (evs : list submission) :=
  foldl submit self evs.

Definition history (self : ErrorInterceptor) : list pystr :=
  Deque.items (command_history self).

(** Whether a submission adds an entry to a history [h]: [auto_analyze]
    always does, [run_command] unless [h] ends with the submitted text. *)
Definition appends (h : list pystr) (ev : submission) : bool :=
  match ev with
  | ViaRun _ => match last h with
                | None => true
                | Some l => negb (eqb (submitted ev) l)
                end
  | ViaAuto _ _ => true
  end.

(** The texts that reach the history, in the order they are submitted: a
    submission is entered behind the entries [h] when [appends] lets it
    through.  Nothing is ever dropped from this log. *)
Fixpoint log_from (h : list pystr) (evs : list submission) : list pystr :=
  match evs with
  | [] => h
  | ev :: evs' =>
      log_from (if appends h ev then h ++ [submitted ev] else h) evs'
  end.

(** ** Regular expressions *)

(** The patterns of the source are built from literals, character classes,
    quantified character classes, groups, alternation, a lookahead and the
    end anchor.  [run r s g] lists, in the order a backtracking matcher
    tries them, the ways [r] can match a prefix of [s]: each result is the
    unread rest of [s] with the groups captured so far. *)
Module Regex.

Inductive regex :=
| Lit (s : pystr)                      (* a literal string *)
| Class (p : char → bool)              (* one character of a class *)
| Rep (greedy : bool) (lo : nat) (hi : option nat) (p : char → bool)
                                       (* class{lo,hi}, greedy or lazy *)
| Cat (r1 r2 : regex)
| Alt (r1 r2 : regex)
| Group (i : nat) (r : regex)          (* capturing group number i *)
| Ahead (r : regex)                    (* (?=r) *)
| Eos.                                 (* $ without re.MULTILINE *)

Definition any : char → bool := λ _, true.               (* . with re.DOTALL *)
Definition one (c : char) : char → bool := λ x, (x =? c)%N.
Definition not_one (c : char) : char → bool := λ x, negb (x =? c)%N.
Definition range (lo hi : char) : char → bool :=
  λ x, ((lo <=? x) && (x <=? hi))%N.
Arguments one c%_N.
Arguments not_one c%_N.
Arguments range (lo hi)%_N.

(** The rests of [s] after 0, 1, 2, ... leading characters of class [p]. *)
Fixpoint class_runs (p : char → bool) (s : pystr) : list pystr :=
  s :: match s with
       | c :: s' => if p c then class_runs p s' else []
       | [] => []
       end.

Definition rep_rests (greedy : bool) (lo : nat) (hi : option nat)
    (p : char → bool) (s : pystr) : list pystr :=
  let all := class_runs p s in
  let upto := match hi with Some h => take (S h) all | None => all end in
  let window := drop lo upto in
  if greedy then reverse window else window.

(** The text read between [s] and its suffix [rest]. *)
Definition consumed (s rest : pystr) : pystr :=
  take (length s - length rest) s.

Fixpoint run (r : regex) (s : pystr) (g : gmap nat pystr)
  : list (pystr * gmap nat pystr) :=
  match r with
  | Lit l => if startswith l s then [(drop (length l) s, g)] else []
  | Class p => match s with
               | c :: s' => if p c then [(s', g)] else []
               | [] => []
               end
  | Rep greedy lo hi p => (λ rest, (rest, g)) <$> rep_rests greedy lo hi p s
  | Cat r1 r2 => run r1 s g ≫= (λ '(s', g'), run r2 s' g')
  | Alt r1 r2 => run r1 s g ++ run r2 s g
  | Group i r1 => (λ '(s', g'), (s', <[i := consumed s s']> g')) <$> run r1 s g
  | Ahead r1 => match run r1 s g with
                | [] => []
                | (_, g') :: _ => [(s, g')]
                end
  | Eos => match s with
           | [] => [(s, g)]
           | [c] => if (c =? LF)%N then [(s, g)] else []
           | _ => []
           end
  end.

(** The first way [r] matches at the start of [s], if any. *)
Definition match_here (r : regex) (s : pystr) : option (pystr * gmap nat pystr) :=
  head (run r s ∅).

(** A match object: where the match starts, the matched text and the groups;
    [group m i] is [m.group(i)], absent for a group that took no part. *)
Record rmatch := mkMatch {
  m_start : nat;
  m_text : pystr;
  m_groups : gmap nat pystr
}.

Definition group (m : rmatch) (i : nat) : option pystr :=
  match i with
  | 0 => Some (m_text m)
  | _ => m_groups m !! i
  end.

(** [re.search(r, s)]: the match at the leftmost position that has one. *)
Fixpoint search_from (r : regex) (pos : nat) (s : pystr) : option rmatch :=
  match match_here r s with
  | Some (rest, g) => Some (mkMatch pos (consumed s rest) g)
  | None => match s with
            | [] => None
            | _ :: s' => search_from r (S pos) s'
            end
  end.

Definition search (r : regex) (s : pystr) : option rmatch := search_from r 0 s.

(** [re.sub(r, '', s)]: scanning from the left, every match is deleted and
    scanning resumes behind it; a character at which nothing matches is
    kept.  Deleting an empty match changes nothing, and the scan then moves
    on by one character (the pattern this is used with reads an ESC first
    and so has no empty match). *)
Equations? delete_matches (r : regex) (s : pystr) : pystr by wf (length s) lt :=
  delete_matches r [] := [];
  delete_matches r (c :: s') with inspect (fst <$> match_here r (c :: s')) := {
    | exist _ (Some rest) _
        with inspect (length rest <? length (c :: s')) := {
        | exist _ true Hlt := delete_matches r rest;
        | exist _ false _ := c :: delete_matches r s' };
    | exist _ None _ := c :: delete_matches r s' }.
Proof. apply Nat.ltb_lt in Hlt. exact Hlt. Qed.

Declare Scope regex_scope.
Delimit Scope regex_scope with re.
Bind Scope regex_scope with regex.
Infix ">>" := Cat (at level 41, right associativity) : regex_scope.
Infix "<|>" := Alt (at level 43, right associativity) : regex_scope.

End Regex.
Import Regex.

(** ** Sanitising the error output *)

Definition ESC : char := 27%N.

(** [\x1B\[[0-?]*[ -/]*[@-~]] *)
Definition ansi_escape : regex :=
  (Lit [ESC] >> Lit (str "[") >>
   Rep true 0 None (range 48 63) >>       (* [0-?]* *)
   Rep true 0 None (range 32 47) >>       (* [ -/]* *)
   Class (range 64 126))%re.              (* [@-~] *)

(** The last line of [_get_full_error_output]. *)
Definition sanitize (error_output : pystr) : pystr :=
  strip (delete_matches ansi_escape error_output).

(** Every ESC of [s] begins a complete escape sequence. *)
Fixpoint escapes_complete (s : pystr) : bool :=
  match s with
  | [] => true
  | c :: s' =>
      (if (c =? ESC)%N then bool_decide (is_Some (match_here ansi_escape s))
       else true) && escapes_complete s'
  end.

(** ** Parsing the assistant's answer: thinking blocks *)

Definition len (s : pystr) : Z := Z.of_nat (length s).

Definition think_open : pystr := str "<think>".
Definition think_close : pystr := str "</think>".

(** The loop test of line 158. *)
Definition think_test (remaining : pystr) : bool :=
  contains think_open remaining && contains think_close remaining.

(** The loop body, lines 159-163, on the pair (thoughts, remaining). *)
Definition think_body (thoughts : list pystr) (remaining : pystr)
  : list pystr * pystr :=
  let think_start := (find remaining think_open + len think_open)%Z in
  let think_end := find remaining think_close in
  if ((think_start >? -1) && (think_end >? -1))%Z
  then (thoughts ++ [strip (slice remaining think_start think_end)],
        slice_from remaining (think_end + len think_close))
  else (thoughts, remaining).

(** What [find] returns when the substring occurs. *)
Lemma find_from_bounds sub s i :
  contains sub s = true →
  (i ≤ find_from sub s i ∧
   find_from sub s i + len sub ≤ i + len s)%Z.
Proof.
  revert i. induction s as [|c s IH]; intros i; simpl.
  - destruct (startswith sub []) eqn:E; [|done].
    intros _. destruct sub; [|done]. unfold len. simpl. lia.
  - destruct (startswith sub (c :: s)) eqn:E.
    + intros _. split; [lia|].
      assert (length sub ≤ length (c :: s)); [|unfold len; lia].
      clear IH. revert E. generalize (c :: s). clear.
      induction sub as [|a sub IH]; intros [|b t]; simpl; try done; try lia.
      intros [_ H]%andb_true_iff. apply IH in H. lia.
    + simpl. intros H. specialize (IH (i + 1)%Z H). unfold len in *. simpl length.
      lia.
Qed.

(** An iteration that passes the loop test continues on a text that is
    shorter by at least the length of the closing marker. *)
Lemma think_body_shrinks thoughts remaining :
  think_test remaining = true →
  length (think_body thoughts remaining).2 + 8 ≤ length remaining.
Proof.
  unfold think_test, think_body. intros [Ho Hc]%andb_true_iff.
  pose proof (find_from_bounds _ _ 0%Z Ho) as [Ho1 Ho2].
  pose proof (find_from_bounds _ _ 0%Z Hc) as [Hc1 Hc2].
  fold (find remaining think_open) in Ho1, Ho2.
  fold (find remaining think_close) in Hc1, Hc2.
  change (len think_open) with 7%Z in *. change (len think_close) with 8%Z in *.
  destruct (_ && _) eqn:E; simpl.
  - unfold slice_from, clamp_index. rewrite length_drop.
    destruct (_ <? 0)%Z eqn:E'; [lia|]. unfold len in *. lia.
  - apply andb_false_iff in E as [E|E]; lia.
Qed.

(** The [while] loop of lines 158-163. *)
Equations? extract_thoughts (thoughts : list pystr) (remaining : pystr)
  : list pystr * pystr by wf (length remaining) lt :=
  extract_thoughts thoughts remaining with inspect (think_test remaining) := {
    | exist _ true Htest :=
        extract_thoughts (think_body thoughts remaining).1
                         (think_body thoughts remaining).2;
    | exist _ false _ := (thoughts, remaining) }.
Proof. pose proof (think_body_shrinks thoughts remaining Htest). lia. Qed.

(** ** Parsing the assistant's answer: labelled sections *)

Definition magnifier : pystr := [0x1F50D%N].           (* U+1F50D *)
Definition tools : pystr := [0x1F6E0%N; 0xFE0F%N].     (* U+1F6E0 U+FE0F *)
Definition books : pystr := [0x1F4DA%N].               (* U+1F4DA *)
Definition warning : pystr := [0x26A0%N; 0xFE0F%N].    (* U+26A0 U+FE0F *)
Definition lock : pystr := [0x1F512%N].                (* U+1F512 *)
Definition backtick : char := 96%N.

Inductive section := Cause | Fix | Explanation | Risk | Prevention.

#[global] Instance section_eq_dec : EqDecision section.
Proof. solve_decision. Defined.

(** The text each pattern starts with. *)
Definition label (sec : section) : pystr :=
  match sec with
  | Cause => magnifier ++ str " Root Cause: "
  | Fix => tools ++ str " Fix: "
  | Explanation => books ++ str " Technical Explanation: "
  | Risk => warning ++ str " Potential Risks: "
  | Prevention => lock ++ str " Prevention Tip: "
  end.

(** The literals of each pattern's lookahead. *)
Definition stops (sec : section) : list pystr :=
  match sec with
  | Cause => [LF :: tools; LF :: books; LF :: warning; LF :: lock]
  | Explanation => [LF :: warning; LF :: lock]
  | Risk => [LF :: lock]
  | Prevention => [[LF]]
  | Fix => []
  end.

(** [(?=l1|l2|...|$)] *)
Definition ahead_of (ls : list pystr) : regex :=
  Ahead (foldr (λ l r, Alt (Lit l) r) Eos ls).

(** The five patterns of lines 208-212, all compiled with [re.DOTALL]. *)
Definition pattern (sec : section) : regex :=
  match sec with
  | Fix =>
      (Lit (label Fix) >>
       Group 1 (Rep true 1 (Some 3) (one backtick) >>
                Group 2 (Rep false 0 None any) >>
                Rep true 1 (Some 3) (one backtick)
                <|> Group 3 (Rep true 1 None (not_one LF))))%re
  | _ =>
      (Lit (label sec) >> Group 1 (Rep false 1 None any) >>
       ahead_of (stops sec))%re
  end.

(** [components[sec]], and its [group(1)] when there is a match. *)
Definition component (sec : section) (remaining : pystr) : option rmatch :=
  search (pattern sec) remaining.

Definition captured (sec : section) (remaining : pystr) : option pystr :=
  component sec remaining ≫= λ m, group m 1.

(** What [_show_analysis] derives from the answer before it renders. *)
Record ParsedResponse := mkParsed {
  thoughts : list pystr;
  cause : option pystr;
  fix_ : option pystr;                  (* the key 'fix' *)
  explanation : option pystr;
  risk : option pystr;
  prevention : option pystr
}.

Definition sections_of (ts : list pystr) (remaining : pystr) :=
  {| thoughts := ts;
     cause := captured Cause remaining;
     fix_ := captured Fix remaining;
     explanation := captured Explanation remaining;
     risk := captured Risk remaining;
     prevention := captured Prevention remaining |}.

Definition parse_response (solution : pystr) : ParsedResponse :=
  let '(ts, remaining) := extract_thoughts [] solution in
  sections_of ts remaining.

(** [s.strip('`')], applied to the fix before it is shown. *)
Fixpoint lstrip_char (c : char) (s : pystr) : pystr :=
  match s with
  | x :: s' => if (x =? c)%N then lstrip_char c s' else s
  | [] => []
  end.

Definition strip_char (c : char) (s : pystr) : pystr :=
  reverse (lstrip_char c (reverse (lstrip_char c s))).

Definition fix_command (p : ParsedResponse) : option pystr :=
  strip_char backtick <$> fix_ p.

(** Where each pattern stops reading a section.  [$] holds at the end of
    the text and before a final newline; the lookaheads add a newline
    followed by the emoji of a later section (any newline for the
    prevention tip).  The second alternative of the fix pattern,
    [[^\n]+], reads up to the next newline or the end of the text. *)
Definition at_end (s : pystr) : bool :=
  match s with
  | [] => true
  | [c] => (c =? LF)%N
  | _ => false
  end.

Definition at_stop (sec : section) (s : pystr) : bool :=
  match sec with
  | Fix => match s with
           | [] => true
           | c :: _ => (c =? LF)%N
           end
  | _ => existsb (λ l, startswith l s) (stops sec) || at_end s
  end.

(** No stop in front of any character of [b], read in front of [rest]. *)
Fixpoint runs_on (sec : section) (b rest : pystr) : bool :=
  match b with
  | [] => true
  | _ :: b' => negb (at_stop sec (b ++ rest)) && runs_on sec b' rest
  end.

(** The first character behind the label is read without a test by [.+?];
    a fix written without backticks does not start with a backtick or a
    newline. *)
Definition first_ok (sec : section) (c : char) : bool :=
  match sec with
  | Fix => negb (c =? backtick)%N && negb (c =? LF)%N
  | _ => true
  end.

(** [body], followed by [rest], is what the pattern of [sec] reads behind
    the label: its first character and then everything up to the first
    stop. *)
Definition delimited (sec : section) (body rest : pystr) : bool :=
  match body with
  | [] => false
  | c :: b => first_ok sec c && runs_on sec b rest && at_stop sec rest
  end.

(** A section as the specification words it: the text behind the label,
    up to the start of the next known label or the end of the text. *)
Definition known_labels : list pystr :=
  [label Cause; label Fix; label Explanation; label Risk; label Prevention].

Fixpoint until_next_label (s : pystr) : pystr :=
  match s with
  | [] => []
  | c :: s' =>
      if existsb (λ l, startswith l s) known_labels then []
      else c :: until_next_label s'
  end.

Definition spec_section (sec : section) (text : pystr) : option pystr :=
  let i := find text (label sec) in
  if (i <? 0)%Z then None
  else Some (until_next_label (slice_from text (i + len (label sec)))).

(** ** The world outside the interceptor *)

(** Exceptions derived from [Exception]; [sys.exit] is not one of them and
    is modelled by the exit code [run_command] ends with. *)
Inductive exn :=
| FileNotFoundError
| PermissionError
| CalledProcessError
| UnicodeDecodeError
| OtherError (name : string).

Inductive outcome (A : Type) :=
| Ok (a : A)
| Raised (e : exn).
Arguments Ok {A}.
Arguments Raised {A}.

#[global] Instance outcome_bind : MBind outcome :=
  λ A B k m, match m with
             | Ok a => k a
             | Raised e => Raised e
             end.

(** [try: m except Exception: return d] *)
Definition try_except {A} (m : outcome A) (d : A) : A :=
  match m with
  | Ok a => a
  | Raised _ => d
  end.

(** A captured or inherited stream of a finished process. *)
Inductive pipe :=
| PNone
| PStr (s : pystr)
| PBytes (b : list N).

Record CompletedProcess := mkProcess {
  args : pystr;
  returncode : Z;
  stdout : pipe;
  stderr : pipe
}.

(** A process run with [capture_output=True, text=True]: both streams are
    strings. *)
Record Captured := mkCaptured {
  c_returncode : Z;
  c_stdout : pystr;
  c_stderr : pystr
}.

(** What the operating system, the child processes and the remote service
    answer.  The answers are those at the time of the failure; they do not
    depend on one another. *)
Record World := mkWorld {
  environ : gmap string pystr;               (* os.environ *)
  getcwd : outcome pystr;                      (* os.getcwd() *)
  listdir : pystr → outcome (list pystr);      (* os.listdir(path) *)
  isfile : pystr → bool;                      (* os.path.isfile(name) *)
  isdir : pystr → bool;                       (* os.path.isdir(name) *)
  run_live : pystr → outcome Z;
    (* subprocess.run(cmd, shell=True) on the inherited streams: its
       return code *)
  run_captured : pystr → outcome Captured;
    (* subprocess.run(cmd, shell=True, capture_output=True, text=True) *)
  check_output : list pystr → outcome pystr;
    (* subprocess.check_output(argv, stderr=DEVNULL, text=True) *)
  get_error_solution : gmap string pyval → outcome (option pystr)
    (* llm_handler.get_error_solution(error_context) *)
}.

(** [os.getenv(name, default)] and [os.getenv(name)] *)
Definition getenv_default (w : World) (name : string) (d : pystr) : pystr :=
  default d (environ w !! name).

Definition getenv (w : World) (name : string) : option pystr :=
  environ w !! name.

(** Library functions the module calls and does not define. *)
Class Builtins := {
  upper : pystr → pystr;                      (* str.upper *)
  decode : list N → outcome pystr;             (* bytes.decode *)
  yaml_dump : gmap string pyval → pystr       (* yaml.dump(_, allow_unicode=True) *)
}.

(** [str.upper] on ASCII text. *)
Definition ascii_upper (s : pystr) : pystr :=
  (λ c, if ((97 <=? c) && (c <=? 122))%N then (c - 32)%N else c) <$> s.

(** Truthiness of the values the module tests. *)
Definition nonempty {A} (l : list A) : bool :=
  match l with [] => false | _ => true end.

Definition pipe_truthy (p : pipe) : bool :=
  match p with
  | PNone => false
  | PStr s => nonempty s
  | PBytes b => nonempty b
  end.

Section Interceptor.
Context `{B : Builtins}.

(** ** Context collectors *)

(** [_get_relevant_env_vars] *)
Definition get_relevant_env_vars (w : World) : list (string * pystr) :=
  (λ name, (name, getenv_default w name []))
    <$> ["PATH"; "SHELL"; "USER"; "HOME"; "PWD"; "OLDPWD"]%string.

(** [_get_process_tree] *)
Definition get_process_tree (w : World) : list pystr :=
  try_except
    (ps_output ← check_output w [str "ps"; str "-ef"; str "--forest"];
     Ok (lastn 10 (split_on LF (strip ps_output))))
    [].

(** [_get_file_context]: the working directory is read before the [try]. *)
Definition get_file_context (w : World) : outcome (list (string * list pystr)) :=
  cwd ← getcwd w;
  Ok (try_except
        (files ← listdir w cwd;
         dirs ← listdir w cwd;
         Ok [("files"%string, take 10 (List.filter (isfile w) files));
             ("dirs"%string, take 5 (List.filter (isdir w) dirs))])
        []).

(** [_get_network_state] *)
Definition get_network_state (w : World) : list pystr :=
  try_except
    (out ← check_output w [str "ss"; str "-tulpn"];
     Ok (take 5 (split_on LF (strip out))))
    [].

(** [_get_git_context] *)
Definition get_git_context (w : World) : gmap string pyval :=
  try_except
    (git_status ← run_captured w (str "git status --porcelain");
     git_remotes ← run_captured w (str "git remote -v");
     Ok ({[ "git_status"%string := VStr (c_stdout git_status);
            "git_remotes"%string := VStr (c_stdout git_remotes) ]}
         : gmap string pyval))
    ∅.

(** The scan of lines 125-134 over the lines of the manual page; the size
    test follows the update of [sections] in every iteration. *)
Definition is_header (line : pystr) : bool :=
  bool_decide (upper line ∈ [str "NAME"; str "SYNOPSIS"; str "DESCRIPTION"]).

Fixpoint scan_manual (lines : list pystr) (sections : list pystr)
    (current_section : option pystr) : list pystr :=
  match lines with
  | [] => sections
  | line :: lines' =>
      let '(sections, current_section) :=
        if is_header line then (sections ++ [line], Some line)
        else if from_option nonempty false current_section
                && startswith (str " ") line
        then (sections ++ [strip line], current_section)
        else (sections, current_section) in
      if 10 <? length sections then sections
      else scan_manual lines' sections current_section
  end.

(** [_get_man_page] *)
Definition get_man_page (w : World) (command : pystr) : pystr :=
  try_except
    (result ← run_captured w (str "man " ++ command ++ str " 2>/dev/null | col -b");
     if (c_returncode result =? 0)%Z
     then let content := c_stdout result in
          Ok (join [LF] (scan_manual (split_on LF content) [] None))
     else Ok (str "No manual entry available"))
    (str "Error retrieving manual page").

(** [_get_native_error] *)
Definition get_native_error (w : World) (command : pystr) : pystr :=
  try_except
    (result ← run_captured w command;
     Ok (strip (c_stderr result)))
    (str "Command execution failed").

(** [_get_additional_context] *)
Definition get_additional_context (self : ErrorInterceptor) (w : World)
  : outcome (gmap string pyval) :=
  let env_vars := get_relevant_env_vars w in
  let process_tree := get_process_tree w in
  file_context ← get_file_context w;
  let network_state := get_network_state w in
  let context : gmap string pyval :=
    {[ "env_vars"%string := VStrDict env_vars;
       "process_tree"%string := VList process_tree;
       "file_context"%string := VListDict file_context;
       "network_state"%string := VList network_state ]} in
  Ok (if startswith (str "git ") (last_command self)
      then get_git_context w ∪ context      (* context.update(...) *)
      else context).

(** ** Assembling the error context *)

(** [_get_relevant_files_from_history] *)
Definition file_commands : list pystr :=
  [str "touch"; str "mkdir"; str "cp"; str "mv"; str "vim"; str "nano"].

Fixpoint collect_files (cmds : list pystr) (files : list pystr) : list pystr :=
  match cmds with
  | [] => files
  | cmd :: cmds' =>
      let parts := split cmd in
      match parts with
      | first :: _ =>
          if bool_decide (first ∈ file_commands)
          then let files := files ++ [List.last parts []] in
               if 3 <=? length files then files
               else collect_files cmds' files
          else collect_files cmds' files
      | [] => collect_files cmds' files
      end
  end.

Definition get_relevant_files_from_history (self : ErrorInterceptor) : list pystr :=
  collect_files (reverse (removelast (history self))) [].

(** [_get_full_error_output]: standard error first, then a newline and
    standard output, each only when it is not empty. *)
Definition pipe_text (p : pipe) : outcome pystr :=
  match p with
  | PStr s => Ok s
  | PBytes b => decode b
  | PNone => Ok []
  end.

Definition get_full_error_output (result : CompletedProcess) : outcome pystr :=
  let error_output := [] in
  error_output ←
    (if pipe_truthy (stderr result)
     then (t ← pipe_text (stderr result); Ok (error_output ++ t))
     else Ok error_output);
  error_output ←
    (if pipe_truthy (stdout result)
     then (t ← pipe_text (stdout result); Ok (error_output ++ [LF] ++ t))
     else Ok error_output);
  Ok (sanitize error_output).

(** Lines 69-85 of [_handle_error]: in the dictionary literal the entries
    of [context] come last and so take precedence. *)
Definition assemble_context (self : ErrorInterceptor) (result : CompletedProcess)
    (context : gmap string pyval) (w : World) : outcome (gmap string pyval) :=
  let relevant_files := get_relevant_files_from_history self in
  error_output ← get_full_error_output result;
  cwd ← getcwd w;
  let base : gmap string pyval :=
    {[ "command"%string := VStr (last_command self);
       "error_output"%string := VStr error_output;
       "cwd"%string := VStr cwd;
       "exit_code"%string := VInt (returncode result);
       "history"%string := VList (history self);
       "relevant_files"%string := VList relevant_files ]} in
  let error_context := context ∪ base in
  Ok (match split (last_command self) with
      | base_cmd :: _ => <["man_excerpt"%string := VStr (get_man_page w base_cmd)]> error_context
      | [] => error_context
      end).

(** What reaches the terminal and the remote service. *)
Inductive event :=
| DebugDump (text : pystr)                       (* lines 88-89 *)
| AnalyzingNotice                                (* line 91 *)
| Submitted (error_context : gmap string pyval)  (* line 92 *)
| Analysis (parsed : ParsedResponse) (error_context : gmap string pyval)
                                                 (* line 95 *)
| NoAnalysisNotice                               (* line 97 *)
| ExecutionErrorNotice (e : exn).                (* line 51 *)

Definition debug_enabled (w : World) : bool :=
  from_option nonempty false (getenv w "SHELLSAGE_DEBUG").

(** [_handle_error]: the events it produces, and the exception that ends
    it early, if any. *)
Definition handle_error (self : ErrorInterceptor) (result : CompletedProcess)
    (context : gmap string pyval) (w : World) : list event * option exn :=
  match assemble_context self result context w with
  | Raised e => ([], Some e)
  | Ok error_context =>
      let dump :=
        if debug_enabled w then [DebugDump (yaml_dump error_context)] else [] in
      let shown := dump ++ [AnalyzingNotice; Submitted error_context] in
      match get_error_solution w error_context with
      | Raised e => (shown, Some e)
      | Ok solution =>
          (shown ++
           match solution with
           | Some (c :: s) => [Analysis (parse_response (c :: s)) error_context]
           | _ => [NoAnalysisNotice]
           end, None)
      end
  end.

(** [auto_analyze] *)
Definition auto_analyze (self : ErrorInterceptor) (command : pystr) (exit_code : Z)
    (w : World) : ErrorInterceptor * (list event * option exn) :=
  let self := auto_analyze_record self command in
  let result :=
    mkProcess command exit_code (PStr []) (PStr (get_native_error w command)) in
  (self, handle_error self result (context_cache self) w).

Definition set_context_cache (self : ErrorInterceptor) (c : gmap string pyval) :=
  {| command_history := command_history self;
     last_command := last_command self;
     context_cache := c |}.

(** [run_command]: the events shown and the exit code of the process.  An
    exception raised on the way is reported and turned into exit code 1. *)
Definition run_command (self : ErrorInterceptor) (command : list pystr) (w : World)
  : ErrorInterceptor * list event * Z :=
  let self := run_command_record self command in
  let full_cmd := last_command self in
  match run_live w full_cmd with
  | Raised e => (self, [ExecutionErrorNotice e], 1%Z)
  | Ok code =>
      if (code =? 0)%Z then (self, [], code)
      else
        match get_additional_context self w with
        | Raised e => (self, [ExecutionErrorNotice e], 1%Z)
        | Ok context =>
            let self := set_context_cache self context in
            let result := mkProcess full_cmd code PNone PNone in
            match handle_error self result (context_cache self) w with
            | (evs, Some e) => (self, evs ++ [ExecutionErrorNotice e], 1%Z)
            | (evs, None) => (self, evs, code)
            end
        end
  end.

End Interceptor.

(** ** Worlds and library functions for the examples *)

(** The library functions on ASCII data; the dump is not looked at. *)
Definition ascii_builtins : Builtins :=
  {| upper := ascii_upper;
     decode := λ b, if forallb (λ c, c <? 128)%N b then Ok b
                    else Raised UnicodeDecodeError;
     yaml_dump := λ _, [] |}.

(** A world in which every captured command succeeds with the given
    standard output and standard error. *)
Definition world_answering (out err : pystr) : World :=
  {| environ := ∅;
     getcwd := Ok (str "/home/user");
     listdir := λ _, Ok [];
     isfile := λ _, false;
     isdir := λ _, false;
     run_live := λ _, Ok 2%Z;
     run_captured := λ _, Ok (mkCaptured 0 out err);
     check_output := λ _, Raised CalledProcessError;
     get_error_solution := λ _, Ok None |}.

(** The same world after the working directory has been removed. *)
Definition world_without_cwd : World :=
  {| environ := ∅;
     getcwd := Raised FileNotFoundError;
     listdir := λ _, Raised FileNotFoundError;
     isfile := λ _, false;
     isdir := λ _, false;
     run_live := λ _, Ok 2%Z;
     run_captured := λ _, Ok (mkCaptured 0 [] []);
     check_output := λ _, Raised CalledProcessError;
     get_error_solution := λ _, Ok None |}.

(** A manual page with one header and twelve indented lines. *)
Definition long_manual : pystr :=
  join [LF]
    [str "NAME"; str " l1"; str " l2"; str " l3"; str " l4"; str " l5";
     str " l6"; str " l7"; str " l8"; str " l9"; str " l10"; str " l11";
     str " l12"].

(** The environment with [SHELLSAGE_DEBUG] set to [v], or unset. *)
Definition with_debug (v : option pystr) (w : World) : World :=
  {| environ := match v with
                | Some x => <["SHELLSAGE_DEBUG"%string := x]> (environ w)
                | None => delete "SHELLSAGE_DEBUG"%string (environ w)
                end;
     getcwd := getcwd w;
     listdir := listdir w;
     isfile := isfile w;
     isdir := isdir w;
     run_live := run_live w;
     run_captured := run_captured w;
     check_output := check_output w;
     get_error_solution := get_error_solution w |}.

Definition is_dump (ev : event) : bool :=
  match ev with DebugDump _ => true | _ => false end.

Definition without_dump (evs : list event) : list event :=
  List.filter (λ ev, negb (is_dump ev)) evs.

(** ** Definitions used to state further properties *)

(** The file a history entry contributes to the relevant files: its last
    word, when its first word is one of the file commands. *)
Definition file_of (cmd : pystr) : option pystr :=
  match split cmd with
  | first :: rest =>
      if bool_decide (first ∈ file_commands)
      then Some (List.last (first :: rest) [])
      else None
  | [] => None
  end.

(** The names read by [_get_relevant_env_vars]. *)
Definition env_names : list string :=
  ["PATH"; "SHELL"; "USER"; "HOME"; "PWD"; "OLDPWD"]%string.

(** The world with the environment variable [name] set to [v], or unset. *)
Definition set_env (name : string) (v : option pystr) (w : World) : World :=
  {| environ := match v with
                | Some x => <[name := x]> (environ w)
                | None => delete name (environ w)
                end;
     getcwd := getcwd w;
     listdir := listdir w;
     isfile := isfile w;
     isdir := isdir w;
     run_live := run_live w;
     run_captured := run_captured w;
     check_output := check_output w;
     get_error_solution := get_error_solution w |}.

(** The keys written by [_get_additional_context] and by [_get_git_context]. *)
Definition fragment_keys : gset string :=
  {[ "env_vars"; "process_tree"; "file_context"; "network_state" ]}%string.

Definition git_keys : gset string :=
  {[ "git_status"; "git_remotes" ]}%string.

(** The keys written by [_handle_error] itself. *)
Definition base_keys : gset string :=
  {[ "command"; "error_output"; "cwd"; "exit_code"; "history";
     "relevant_files" ]}%string.

(** A synthetic answer: thinking blocks followed by labelled sections in
    the order of the five patterns, one section per line group. *)
Definition wrap_thought (t : pystr) : pystr := think_open ++ t ++ think_close.

Definition thoughts_text (ts : list pystr) : pystr := mjoin (wrap_thought <$> ts).

Fixpoint sections_text (items : list (section * pystr)) : pystr :=
  match items with
  | [] => []
  | [(sec, content)] => label sec ++ content
  | (sec, content) :: rest => label sec ++ content ++ LF :: sections_text rest
  end.

Definition rank (sec : section) : nat :=
  match sec with
  | Cause => 0 | Fix => 1 | Explanation => 2 | Risk => 3 | Prevention => 4
  end.

(** The first code point of each label. *)
Definition emoji (sec : section) : char :=
  match sec with
  | Cause => 0x1F50D | Fix => 0x1F6E0 | Explanation => 0x1F4DA
  | Risk => 0x26A0 | Prevention => 0x1F512
  end%N.

Definition is_emoji (c : char) : bool :=
  existsb (λ sec, (c =? emoji sec)%N) [Cause; Fix; Explanation; Risk; Prevention].

(** Sections in the order of the patterns, each at most once. *)
Fixpoint canonical (items : list (section * pystr)) : bool :=
  match items with
  | [] => true
  | (sec, _) :: rest =>
      forallb (λ item, rank sec <? rank item.1) rest && canonical rest
  end.

(** A content the patterns give back as it is: not empty, without any of
    the five emoji, not ending in a newline; on one line for the fix and
    the prevention tip, and the fix not starting with a backtick. *)
Definition content_ok (item : section * pystr) : bool :=
  let '(sec, content) := item in
  nonempty content &&
  forallb (λ c, negb (is_emoji c)) content &&
  negb (bool_decide (last content = Some LF)) &&
  match sec with
  | Fix => forallb (not_one LF) content &&
           match content with c :: _ => negb (c =? backtick)%N | [] => true end
  | Prevention => forallb (not_one LF) content
  | _ => true
  end.

Definition content_of (sec : section) (items : list (section * pystr))
  : option pystr :=
  snd <$> List.find (λ item, bool_decide (item.1 = sec)) items.

(** What the scan adds to [sections]: lines of the page that are headers,
    and trimmed lines of the page that start with a blank; while no header
    has been seen the next line added is a header. *)
Definition excerpt_entry `{B : Builtins} (lines : list pystr) (e : pystr) : Prop :=
  (is_header e = true ∧ e ∈ lines) ∨
  (∃ l, l ∈ lines ∧ startswith (str " ") l = true ∧ e = strip l).

(** A run of [k] backticks. *)
Definition ticks (k : nat) : pystr := replicate k backtick.

(** The text in front of a section and behind it. *)
Definition text_before (before : list (section * pystr)) : pystr :=
  mjoin ((λ item, label item.1 ++ item.2 ++ [LF]) <$> before).

Definition text_behind (after : list (section * pystr)) : pystr :=
  match after with
  | [] => []
  | _ => LF :: sections_text after
  end.

(** ** What [_show_analysis] prints *)

(** ["\n".join(f"[dim]› {item}[/dim]" for item in items)] *)
Definition dim_lines (items : list pystr) : pystr :=
  join [LF]
    ((λ item, str "[dim]" ++ [0x203A%N] ++ str " " ++ item ++ str "[/dim]")
       <$> items).

(** [f"**{title}**\n{body}"], the source of a Markdown block. *)
Definition markdown_block (title body : pystr) : pystr :=
  str "**" ++ title ++ str "**" ++ [LF] ++ body.

(** The panels of the context row and the things printed, in the order of
    the calls to [console.print]. *)
Inductive context_panel :=
| RecentCommands (text : pystr)            (* lines 179-183 *)
| RelatedFiles (text : pystr)              (* lines 186-190 *)
| ManualReference (code : pystr).          (* lines 193-201 *)

Inductive printed :=
| Heading                                  (* line 165 *)
| CognitiveProcess (text : pystr)          (* lines 169-174 *)
| ContextColumns (panels : list context_panel)   (* line 204 *)
| Diagnosis (blocks : list pystr)          (* lines 223-228 *)
| RecommendedFix (code : pystr)            (* lines 233-239 *)
| AdditionalInformation (blocks : list pystr).   (* lines 249-254 *)

Definition block_of (title : pystr) (content : option pystr) : list pystr :=
  match content with
  | Some text => [markdown_block title text]
  | None => []
  end.

(** The calls to [console.print] that [_show_analysis] makes when none of
    them raises, in order, on the three entries of the context it reads:
    [context['history']], [context.get('relevant_files')] and
    [context.get('man_excerpt')].  Every match of one of the five patterns
    has its group 1, so a section is shown when it is captured. *)
Definition analysis_prints (solution : pystr) (history : list pystr)
    (relevant_files : option (list pystr)) (man_excerpt : option pystr)
  : list printed :=
  let '(ts, remaining) := extract_thoughts [] solution in
  let context_content :=
    (if nonempty history
     then [RecentCommands (dim_lines (lastn 3 history))] else []) ++
    (if from_option nonempty false relevant_files
     then [RelatedFiles (dim_lines (default [] relevant_files))] else []) ++
    (if from_option nonempty false man_excerpt
        && negb (contains (str "No manual entry") (default [] man_excerpt))
     then [ManualReference (default [] man_excerpt)] else []) in
  let analysis_blocks :=
    block_of (str "Root Cause") (captured Cause remaining) ++
    block_of (str "Technical Explanation") (captured Explanation remaining) in
  let info_blocks :=
    block_of (str "Potential Risks") (captured Risk remaining) ++
    block_of (str "Prevention Tip") (captured Prevention remaining) in
  [Heading] ++
  (if nonempty ts then [CognitiveProcess (dim_lines ts)] else []) ++
  (if nonempty context_content then [ContextColumns context_content] else []) ++
  (if nonempty analysis_blocks then [Diagnosis analysis_blocks] else []) ++
  match captured Fix remaining with
  | Some text => [RecommendedFix (strip_char backtick text)]
  | None => []
  end ++
  (if nonempty info_blocks then [AdditionalInformation info_blocks] else []).

(** [console.print] belongs to a library: it parses the texts it is given
    as markup and may raise.  [console p] is the exception raised while the
    renderable [p] is built and printed, if any; the first one ends
    [_show_analysis], and what was printed before it stays printed. *)
Fixpoint print_all (console : printed → option exn) (items : list printed)
  : list printed * option exn :=
  match items with
  | [] => ([], None)
  | p :: items' =>
      match console p with
      | Some e => ([], Some e)
      | None => let '(shown, e) := print_all console items' in (p :: shown, e)
      end
  end.

(** [_show_analysis]: what is printed, and the exception that ends it
    early, if any. *)
Definition show_analysis (console : printed → option exn) (solution : pystr)
    (history : list pystr) (relevant_files : option (list pystr))
    (man_excerpt : option pystr) : list printed * option exn :=
  print_all console (analysis_prints solution history relevant_files man_excerpt).

(** The three entries as [_handle_error] writes them: two lists of strings
    and, when the command has a first word, a string.  A context in which
    the cache has replaced one of them by a value of another type is not
    covered. *)
Definition analysis_view (error_context : gmap string pyval)
  : option (list pystr * option (list pystr) * option pystr) :=
  match error_context !! "history"%string,
        error_context !! "relevant_files"%string,
        error_context !! "man_excerpt"%string with
  | Some (VList history), Some (VList files), Some (VStr excerpt) =>
      Some (history, Some files, Some excerpt)
  | Some (VList history), Some (VList files), None =>
      Some (history, Some files, None)
  | _, _, _ => None
  end.

(** [_show_analysis(solution, error_context)], where it is covered. *)
Definition render (console : printed → option exn) (solution : pystr)
    (error_context : gmap string pyval) : option (list printed * option exn) :=
  match analysis_view error_context with
  | Some (history, files, excerpt) =>
      Some (show_analysis console solution history files excerpt)
  | None => None
  end.



(** The manual panels among printed things. *)
Definition manual_panels (prints : list printed) : list pystr :=
  prints ≫= λ p,
    match p with
    | ContextColumns panels =>
        panels ≫= λ c, match c with ManualReference code => [code] | _ => [] end
    | _ => []
    end.

Definition is_section_panel (p : printed) : bool :=
  match p with
  | Diagnosis _ | RecommendedFix _ | AdditionalInformation _ => true
  | _ => false
  end.

(** ** [_print_component] *)

(** [text.replace('\n', ' ')] *)
Definition replace_newlines (text : pystr) : pystr :=
  (λ c, if (c =? LF)%N then 32%N else c) <$> text.

(** [_print_component]: the lines handed to [print].  A match object is
    always true; [group(1)] of a group that took no part is [None], which
    has no [replace]. *)
Definition print_component (m : option rmatch) (color label : pystr)
  : outcome (list pystr) :=
  match m with
  | None => Ok []
  | Some m =>
      match group m 1 with
      | None => Raised (OtherError "AttributeError")
      | Some text =>
          let cleaned := strip (replace_newlines text) in
          Ok [color ++ [0x25B8%N] ++ str " " ++ label ++ str ":" ++ [LF] ++
              str "   " ++ cleaned ++ [ESC] ++ str "[0m"]
      end
  end.

(** * Properties *)

(** ** Session history *)
Section History.

Implicit Types (self : ErrorInterceptor) (ev : submission) (c : pystr).

Lemma eqb_true_iff (a b : pystr) : eqb a b = true ↔ a = b.
Proof. unfold eqb. apply bool_decide_eq_true. Qed.

Lemma last_of_nonempty {A} (l : list A) (d : A) :
  l ≠ [] → last l = Some (List.last l d).
Proof.
  induction l as [|a [|b l] IH]; simpl; intros H; try done.
  by apply IH.
Qed.

Lemma submit_history self ev :
  command_history (submit self ev) =
  if appends (history self) ev
  then Deque.append (command_history self) (submitted ev)
  else command_history self.
Proof.
  destruct ev as [command|command code]; simpl; [|done].
  unfold run_command_record, history. simpl.
  destruct (Deque.items (command_history self)) as [|a h] eqn:E; simpl; [done|].
  rewrite (last_of_nonempty (a :: h) []) by done.
  by destruct (negb _).
Qed.

Lemma append_items_bounded (d : Deque.deque pystr) c m :
  Deque.maxlen d = Some (S m) → length (Deque.items d) ≤ S m →
  Deque.maxlen (Deque.append d c) = Some (S m) ∧
  length (Deque.items (Deque.append d c)) ≤ S m ∧
  last (Deque.items (Deque.append d c)) = Some c.
Proof.
  intros Hm Hlen. unfold Deque.append. rewrite Hm.
  destruct (S m <? length (Deque.items d ++ [c])) eqn:E; simpl.
  - apply Nat.ltb_lt in E. rewrite length_app in E. simpl in E.
    destruct (Deque.items d) as [|a h]; simpl in *; [lia|].
    split; [done|]. split; [rewrite length_app; simpl; lia|].
    by rewrite last_snoc.
  - apply Nat.ltb_ge in E. split; [done|]. split; [done|].
    by rewrite last_snoc.
Qed.

Lemma appends_false_last h ev :
  appends h ev = false → last h = Some (submitted ev).
Proof.
  destruct ev; simpl; [|done].
  destruct (last h) as [l|]; [|done].
  intros H. apply negb_false_iff, eqb_true_iff in H. by rewrite H.
Qed.

(** One submission keeps the capacity and leaves the submitted text last. *)
Lemma submit_invariant self ev m :
  Deque.maxlen (command_history self) = Some (S m) →
  length (history self) ≤ S m →
  Deque.maxlen (command_history (submit self ev)) = Some (S m) ∧
  length (history (submit self ev)) ≤ S m ∧
  last (history (submit self ev)) = Some (submitted ev).
Proof.
  intros Hm Hlen. unfold history in *. rewrite submit_history.
  destruct (appends _ ev) eqn:E.
  - by apply append_items_bounded.
  - split; [done|]. split; [done|]. by apply appends_false_last.
Qed.

Lemma submit_all_invariant evs self m :
  Deque.maxlen (command_history self) = Some (S m) →
  length (history self) ≤ S m →
  Deque.maxlen (command_history (submit_all self evs)) = Some (S m) ∧
  length (history (submit_all self evs)) ≤ S m ∧
  last (history (submit_all self evs)) =
    match last evs with
    | Some ev => Some (submitted ev)
    | None => last (history self)
    end.
Proof.
  revert self. induction evs as [|ev evs IH] using rev_ind; intros self Hm Hlen.
  - done.
  - unfold submit_all in *. rewrite foldl_app. simpl. rewrite last_snoc.
    destruct (IH self Hm Hlen) as (Hm' & Hlen' & _).
    by apply submit_invariant.
Qed.

Lemma last_drop_lt {A} (l : list A) (k : nat) :
  k < length l → last (drop k l) = last l.
Proof.
  revert k. induction l as [|a l IH]; intros k Hk; simpl in *; [lia|].
  destruct k as [|k]; [done|]. simpl.
  rewrite IH by lia. destruct l; simpl in *; [lia|done].
Qed.

Lemma tail_drop_snoc {A} (l : list A) (k : nat) (c : A) :
  k < length l → tail (drop k l ++ [c]) = drop (S k) (l ++ [c]).
Proof.
  revert k. induction l as [|a l IH]; intros k Hk; simpl in *; [lia|].
  destruct k as [|k]; simpl.
  - by rewrite drop_0.
  - apply IH. lia.
Qed.

(** The bounded history is the tail of what an unbounded one would hold. *)
Lemma append_lastn (b u : Deque.deque pystr) c m :
  Deque.maxlen b = Some (S m) → Deque.maxlen u = None →
  Deque.items b = lastn (S m) (Deque.items u) →
  Deque.items (Deque.append b c) = lastn (S m) (Deque.items (Deque.append u c)).
Proof.
  intros Hb Hu Hrel. unfold Deque.append. rewrite Hb, Hu. simpl.
  unfold lastn in *. rewrite Hrel.
  set (l := Deque.items u) in *. rewrite !length_app, length_drop. simpl.
  destruct (decide (length l ≤ m)) as [Hle|Hgt].
  - replace (length l - S m) with 0 by lia.
    replace (length l + 1 - S m) with 0 by lia. simpl.
    destruct (S m <? _) eqn:E; [apply Nat.ltb_lt in E; lia|done].
  - destruct (S m <? _) eqn:E; [|apply Nat.ltb_ge in E; lia]. simpl.
    replace (length l + 1 - S m) with (S (length l - S m)) by lia.
    apply tail_drop_snoc. lia.
Qed.

Lemma submit_lastn b u ev m :
  Deque.maxlen (command_history b) = Some (S m) →
  Deque.maxlen (command_history u) = None →
  history b = lastn (S m) (history u) →
  Deque.maxlen (command_history (submit b ev)) = Some (S m) ∧
  Deque.maxlen (command_history (submit u ev)) = None ∧
  history (submit b ev) = lastn (S m) (history (submit u ev)).
Proof.
  intros Hb Hu Hrel. unfold history in *. rewrite !submit_history.
  assert (appends (history b) ev = appends (history u) ev) as ->.
  { destruct ev; simpl; [|done]. unfold history. rewrite Hrel.
    unfold lastn. destruct (Deque.items (command_history u)) as [|a l] eqn:E; [done|].
    rewrite last_drop_lt; [done|]. simpl. lia. }
  destruct (appends _ ev).
  - split; [|split].
    + unfold Deque.append. rewrite Hb. by destruct (_ <? _).
    + unfold Deque.append. by rewrite Hu.
    + by apply append_lastn.
  - done.
Qed.

Lemma submit_all_lastn evs b u m :
  Deque.maxlen (command_history b) = Some (S m) →
  Deque.maxlen (command_history u) = None →
  history b = lastn (S m) (history u) →
  Deque.maxlen (command_history (submit_all b evs)) = Some (S m) ∧
  Deque.maxlen (command_history (submit_all u evs)) = None ∧
  history (submit_all b evs) = lastn (S m) (history (submit_all u evs)).
Proof.
  revert b u. induction evs as [|ev evs IH]; intros b u Hb Hu Hrel; [done|].
  simpl. destruct (submit_lastn b u ev m Hb Hu Hrel) as (Hb' & Hu' & Hrel').
  by apply IH.
Qed.

(** An unbounded history holds the whole log. *)
Lemma submit_all_log evs u :
  Deque.maxlen (command_history u) = None →
  history (submit_all u evs) = log_from (history u) evs.
Proof.
  revert u. induction evs as [|ev evs IH]; intros u Hu; [done|].
  cbn [submit_all foldl log_from]. fold (submit_all (submit u ev) evs).
  assert (command_history (submit u ev) =
          Deque.mk (if appends (history u) ev
                    then history u ++ [submitted ev] else history u) None) as Hstep.
  { rewrite submit_history. unfold Deque.append, history. rewrite Hu.
    destruct (appends _ ev); [done|]. destruct (command_history u); by simplify_eq/=. }
  rewrite IH by (by rewrite Hstep). unfold history at 1. by rewrite Hstep.
Qed.

(** C2. For every sequence of submissions made to a fresh interceptor, the
    history holds at most 20 entries; it is exactly the last 20, in the
    order of submission, of the texts that were entered (every text
    submitted through [auto_analyze], and every text submitted through
    [run_command] that differs from the entry in front of it), so that the
    oldest entry is the one evicted; and its last element is the text of
    the most recent submission. *)
Theorem history_bounded_fifo (evs : list submission) :
  length (history (submit_all init evs)) ≤ 20 ∧
  history (submit_all init evs) = lastn 20 (log_from [] evs) ∧
  last (history (submit_all init evs)) = submitted <$> last evs.
Proof.
  split; [|split].
  - apply (submit_all_invariant evs init 19); simpl; [done|lia].
  - destruct (submit_all_lastn evs init init_unbounded 19) as (_ & _ & ->);
      [done..|].
    by rewrite submit_all_log.
  - destruct (submit_all_invariant evs init 19) as (_ & _ & ->); simpl; [done|lia|].
    by destruct (last evs).
Qed.

(** [run_command] does suppress an immediate repetition. *)
Lemma run_command_suppresses_repeat self command :
  last (history self) = Some (join (str " ") command) →
  history (submit self (ViaRun command)) = history self.
Proof.
  intros H. unfold history in *. rewrite submit_history. simpl.
  unfold history. rewrite H. unfold eqb. by rewrite bool_decide_eq_true_2.
Qed.

(** C1. [auto_analyze] appends unconditionally: analysing the same command
    twice in a row leaves two consecutive copies of it in the history,
    whereas the same repetition through [run_command] leaves one. *)
Theorem auto_analyze_repeats_entry :
  let c := str "ls /nonexistent" in
  history (submit_all init [ViaAuto c 2; ViaAuto c 2]) = [c; c] ∧
  history (submit_all init [ViaRun [str "ls"; str "/nonexistent"];
                            ViaRun [str "ls"; str "/nonexistent"]]) = [c].
Proof. split; vm_compute; reflexivity. Qed.

End History.

(** ** ANSI sanitisation *)
Section Sanitize.

Lemma delete_matches_cons r c s' :
  delete_matches r (c :: s') =
  match fst <$> match_here r (c :: s') with
  | Some rest => if length rest <? length (c :: s') then delete_matches r rest
                 else c :: delete_matches r s'
  | None => c :: delete_matches r s'
  end.
Proof.
  simp delete_matches.
  destruct (inspect (fst <$> match_here r (c :: s'))) as [[rest|] H].
  - trans (if length rest <? length (c :: s') then delete_matches r rest
           else c :: delete_matches r s'); [|by rewrite H].
    simp delete_matches.
    destruct (inspect (length rest <? length (c :: s'))) as [[|] H'].
    + trans (delete_matches r rest); [by simp delete_matches|by rewrite H'].
    + trans (c :: delete_matches r s'); [by simp delete_matches|by rewrite H'].
  - trans (c :: delete_matches r s'); [by simp delete_matches|by rewrite H].
Qed.

Lemma class_runs_suffix p s rest :
  rest ∈ class_runs p s → rest `suffix_of` s.
Proof.
  revert rest. induction s as [|c s IH]; intros rest; simpl.
  - intros ->%list_elem_of_singleton. done.
  - intros [->|H]%elem_of_cons; [done|].
    destruct (p c); [|by apply elem_of_nil in H].
    apply suffix_cons_r. by apply IH.
Qed.

Lemma rep_rests_suffix greedy lo hi p s rest :
  rest ∈ rep_rests greedy lo hi p s → rest `suffix_of` s.
Proof.
  unfold rep_rests. intros H. apply (class_runs_suffix p).
  assert (rest ∈ drop lo (match hi with Some h => take (S h) (class_runs p s)
                                      | None => class_runs p s end)) as H'.
  { destruct greedy; [|exact H]. by apply elem_of_reverse. }
  apply (subseteq_drop lo) in H'.
  destruct hi as [h|]; [by apply (subseteq_take (S h)) in H'|done].
Qed.

Lemma startswith_prefix l s : startswith l s = true ↔ l `prefix_of` s.
Proof.
  revert s. induction l as [|a l IH]; intros s; simpl.
  - split; [intros _; apply prefix_nil|done].
  - destruct s as [|b s]; simpl.
    + split; [done|]. intros H. by apply prefix_nil_not in H.
    + rewrite andb_true_iff, IH, N.eqb_eq. split.
      * intros [-> H]. by apply prefix_cons.
      * intros H. split; [by apply prefix_cons_inv_1 in H|by apply prefix_cons_inv_2 in H].
Qed.

(** Whatever a pattern leaves unread is a suffix of its input. *)
Lemma run_suffix r s g rest g' :
  (rest, g') ∈ run r s g → rest `suffix_of` s.
Proof.
  revert s g rest g'. induction r; intros s0 g rest g'; simpl.
  - destruct (startswith s s0); [|by intros ?%elem_of_nil].
    intros H%list_elem_of_singleton. inversion H; subst. apply suffix_drop.
  - destruct s0 as [|c s0]; [by intros ?%elem_of_nil|].
    destruct (p c); [|by intros ?%elem_of_nil].
    intros H%list_elem_of_singleton. inversion H; subst. by apply suffix_cons_r.
  - intros (x & [= -> ->] & H)%list_elem_of_fmap. by eapply rep_rests_suffix.
  - intros ([s1 g1] & H2 & H1)%list_elem_of_bind.
    etrans; [by eapply IHr2|by eapply IHr1].
  - intros [H|H]%elem_of_app; [by eapply IHr1|by eapply IHr2].
  - intros ([s1 g1] & [= -> ->] & H)%list_elem_of_fmap. by eapply IHr.
  - destruct (run r s0 g) as [|[s1 g1] l]; [by intros ?%elem_of_nil|].
    intros H%list_elem_of_singleton. by inversion H.
  - destruct s0 as [|c [|d s0]]; try by intros ?%elem_of_nil.
    + intros H%list_elem_of_singleton. by inversion H.
    + destruct (c =? LF)%N; [|by intros ?%elem_of_nil].
      intros H%list_elem_of_singleton. by inversion H.
Qed.

Lemma head_elem_of {A} (l : list A) (x : A) : head l = Some x → x ∈ l.
Proof. destruct l; [done|]. intros [= ->]. apply elem_of_cons. by left. Qed.

Lemma run_cat_elem r1 r2 s g rest g' :
  (rest, g') ∈ run (Cat r1 r2) s g ↔
  ∃ s1 g1, (s1, g1) ∈ run r1 s g ∧ (rest, g') ∈ run r2 s1 g1.
Proof.
  simpl. rewrite list_elem_of_bind. split.
  - intros ([s1 g1] & H2 & H1). eauto.
  - intros (s1 & g1 & H1 & H2). exists (s1, g1). eauto.
Qed.

Lemma run_lit_elem l s g rest g' :
  (rest, g') ∈ run (Lit l) s g ↔ s = l ++ rest ∧ g' = g.
Proof.
  simpl. destruct (startswith l s) eqn:E.
  - apply startswith_prefix in E as [k ->].
    rewrite list_elem_of_singleton, drop_app_length. split.
    + by intros [= -> ->].
    + intros [->%app_inv_head ->]. done.
  - rewrite elem_of_nil. split; [done|]. intros [-> _].
    assert (startswith l (l ++ rest) = true) as H; [|congruence].
    apply startswith_prefix. by exists rest.
Qed.

(** A match of the escape pattern starts with ESC and is not empty. *)
Lemma ansi_match_inv s rest g :
  match_here ansi_escape s = Some (rest, g) →
  ∃ t, s = ESC :: t ∧ rest `suffix_of` t.
Proof.
  unfold match_here, ansi_escape. intros H%head_elem_of.
  apply run_cat_elem in H as (s1 & g1 & H1 & H2).
  apply run_lit_elem in H1 as [-> ->].
  exists s1. split; [done|]. by eapply run_suffix.
Qed.

Lemma ansi_no_match_without_esc c s :
  c ≠ ESC → match_here ansi_escape (c :: s) = None.
Proof.
  intros Hc. destruct (match_here ansi_escape (c :: s)) as [[rest g]|] eqn:E; [|done].
  apply ansi_match_inv in E as (t & [= -> _] & _). done.
Qed.

Lemma delete_matches_no_esc t :
  ESC ∉ t → delete_matches ansi_escape t = t.
Proof.
  induction t as [|c t IH]; intros Hnot; [by simp delete_matches|].
  apply not_elem_of_cons in Hnot as [Hc Ht].
  rewrite delete_matches_cons, ansi_no_match_without_esc by done.
  simpl. by rewrite IH.
Qed.

Lemma escapes_complete_suffix s rest :
  rest `suffix_of` s → escapes_complete s = true → escapes_complete rest = true.
Proof.
  induction s as [|c s IH]; intros Hsuf Hs.
  - apply suffix_nil_inv in Hsuf. by subst.
  - destruct Hsuf as [[|a k] Hk]; simpl in Hk.
    + by subst.
    + injection Hk as -> ->. simpl in Hs. apply andb_true_iff in Hs as [_ Hs].
      apply IH; [by eexists|done].
Qed.

Lemma delete_matches_complete s :
  escapes_complete s = true → ESC ∉ delete_matches ansi_escape s.
Proof.
  remember (length s) as n eqn:Hn. revert s Hn.
  induction n as [n IH] using lt_wf_ind. intros s -> Hs.
  destruct s as [|c s]; [simp delete_matches; by apply not_elem_of_nil|].
  rewrite delete_matches_cons.
  destruct (match_here ansi_escape (c :: s)) as [[rest g]|] eqn:E; simpl.
  - apply ansi_match_inv in E as (t & [= -> ->] & Hsuf).
    assert (length rest < S (length t)) as Hlt.
    { apply suffix_length in Hsuf. lia. }
    apply Nat.ltb_lt in Hlt as Hlt'. rewrite Hlt'.
    apply (IH (length rest)); [done|done|].
    eapply escapes_complete_suffix; [|exact Hs]. by apply suffix_cons_r.
  - simpl in Hs. apply andb_true_iff in Hs as [Hc Hs].
    apply not_elem_of_cons. split.
    + intros <-. rewrite N.eqb_refl in Hc. apply bool_decide_eq_true in Hc.
      rewrite E in Hc. by destruct Hc.
    + apply (IH (length s)); [simpl; lia|done|done].
Qed.

(** [strip] only removes characters, and stripping again removes nothing. *)
Lemma lstrip_suffix s : lstrip s `suffix_of` s.
Proof.
  induction s as [|c s IH]; simpl; [done|].
  destruct (isspace c); [by apply suffix_cons_r|done].
Qed.

Lemma lstrip_head s c t : lstrip s = c :: t → isspace c = false.
Proof.
  induction s as [|a s IH]; simpl; [done|].
  destruct (isspace a) eqn:E; [done|]. by intros [= <- _].
Qed.

Lemma lstrip_fixed c t : isspace c = false → lstrip (c :: t) = c :: t.
Proof. intros H. simpl. by rewrite H. Qed.

Lemma lstrip_idem s : lstrip (lstrip s) = lstrip s.
Proof.
  destruct (lstrip s) as [|c t] eqn:E; [done|].
  apply lstrip_fixed. by eapply lstrip_head.
Qed.

Lemma rstrip_prefix s : rstrip s `prefix_of` s.
Proof.
  unfold rstrip. apply prefix_suffix_reverse.
  rewrite reverse_involutive. apply lstrip_suffix.
Qed.

Lemma rstrip_idem s : rstrip (rstrip s) = rstrip s.
Proof. unfold rstrip. by rewrite reverse_involutive, lstrip_idem. Qed.

Lemma strip_idem s : strip (strip s) = strip s.
Proof.
  unfold strip.
  assert (lstrip (rstrip (lstrip s)) = rstrip (lstrip s)) as ->.
  { destruct (rstrip (lstrip s)) as [|c t] eqn:E; [done|].
    apply lstrip_fixed.
    pose proof (rstrip_prefix (lstrip s)) as [k Hk]. rewrite E in Hk.
    by eapply lstrip_head. }
  apply rstrip_idem.
Qed.

Lemma strip_elem_of s x : x ∈ strip s → x ∈ s.
Proof.
  unfold strip. intros Hx.
  destruct (rstrip_prefix (lstrip s)) as [k Hk].
  destruct (lstrip_suffix s) as [k' Hk'].
  rewrite Hk', Hk, !elem_of_app. auto.
Qed.

(** C6, as the code has it.  When every ESC of the text begins a complete
    escape sequence, sanitising removes all of them and sanitising the
    result again changes nothing. *)
Theorem sanitize_idempotent_when_complete (s : pystr) :
  escapes_complete s = true → sanitize (sanitize s) = sanitize s.
Proof.
  intros Hs. unfold sanitize.
  assert (ESC ∉ strip (delete_matches ansi_escape s)) as Hnot.
  { intros Hin. apply strip_elem_of in Hin. by apply delete_matches_complete in Hin. }
  rewrite (delete_matches_no_esc _ Hnot). apply strip_idem.
Qed.

Lemma sanitize_idempotent_when_complete_witness :
  let s := [ESC] ++ str "[1;31mls: error" ++ [ESC] ++ str "[0m " in
  escapes_complete s = true ∧ sanitize s = str "ls: error" ∧
  sanitize (sanitize s) = sanitize s.
Proof.
  split; [vm_compute; reflexivity|]. split; [vm_compute; reflexivity|].
  apply sanitize_idempotent_when_complete. vm_compute. reflexivity.
Defined.

(** C6, as stated, fails: deleting the escape sequence in the middle of
    [ESC ESC [ m [ m] joins the first ESC with the trailing [[m], which a
    second pass then deletes. *)
Lemma sanitize_not_idempotent :
  let s := [ESC; ESC] ++ str "[m[m" in
  sanitize s = [ESC] ++ str "[m" ∧ sanitize (sanitize s) = [] ∧
  sanitize (sanitize s) ≠ sanitize s.
Proof. split; [|split]; vm_compute; done. Qed.

End Sanitize.

(** ** Thinking blocks *)
Section Thoughts.

Lemma extract_thoughts_loop ts remaining :
  extract_thoughts ts remaining =
  if think_test remaining
  then extract_thoughts (think_body ts remaining).1 (think_body ts remaining).2
  else (ts, remaining).
Proof.
  rewrite (extract_thoughts_equation_1 ts remaining).
  destruct (inspect (think_test remaining)) as [[|] H]; simpl; by rewrite H.
Qed.

Lemma extract_thoughts_exit ts remaining :
  think_test (extract_thoughts ts remaining).2 = false.
Proof.
  remember (length remaining) as n eqn:Hn. revert ts remaining Hn.
  induction n as [n IH] using lt_wf_ind. intros ts remaining ->.
  rewrite extract_thoughts_loop.
  destruct (think_test remaining) eqn:E; [|done].
  eapply IH; [|done]. pose proof (think_body_shrinks ts remaining E). lia.
Qed.

(** An iteration that passes the loop test records the text between the
    first opening and the first closing marker and continues behind the
    first closing marker. *)
Lemma think_body_advances ts remaining :
  think_test remaining = true →
  think_body ts remaining =
    (ts ++ [strip (slice remaining (find remaining think_open + 7)
                         (find remaining think_close))],
     drop (Z.to_nat (find remaining think_close) + 8) remaining).
Proof.
  unfold think_test, think_body. intros [Ho Hc]%andb_true_iff.
  pose proof (find_from_bounds _ _ 0%Z Ho) as [Ho1 Ho2].
  pose proof (find_from_bounds _ _ 0%Z Hc) as [Hc1 Hc2].
  fold (find remaining think_open) in *. fold (find remaining think_close) in *.
  change (len think_open) with 7%Z in *. change (len think_close) with 8%Z in *.
  destruct (_ && _) eqn:E; [|apply andb_false_iff in E as [E|E]; lia].
  f_equal. unfold slice_from, clamp_index, len in *.
  destruct (_ <? 0)%Z eqn:E1; [lia|]. f_equal. lia.
Qed.

(** When the first closing marker comes before the first opening marker the
    recorded thought is empty. *)
Lemma think_body_close_first ts remaining :
  think_test remaining = true →
  (find remaining think_close < find remaining think_open)%Z →
  (think_body ts remaining).1 = ts ++ [[]].
Proof.
  intros Ht Hlt. rewrite (think_body_advances ts remaining Ht). cbn [fst].
  f_equal. f_equal.
  unfold think_test in Ht. apply andb_true_iff in Ht as [Ho Hc].
  pose proof (find_from_bounds _ _ 0%Z Ho) as [Ho1 Ho2].
  pose proof (find_from_bounds _ _ 0%Z Hc) as [Hc1 Hc2].
  fold (find remaining think_open) in *. fold (find remaining think_close) in *.
  change (len think_open) with 7%Z in *. change (len think_close) with 8%Z in *.
  unfold slice, clamp_index, len in *.
  destruct (_ <? 0)%Z eqn:E1; [lia|]. destruct (_ <? 0)%Z eqn:E2 in |- *; [lia|].
  replace (Z.to_nat _) with 0 by lia. done.
Qed.

(** C10. The extraction loop is a total function: it is the [while] loop
    of the source and the text it returns fails the loop test; every
    iteration that passes the loop test continues behind the first closing
    marker, on a text shorter by at least the eight characters of that
    marker; and when the first closing marker precedes the first opening
    marker the iteration appends the empty thought. *)
Theorem extract_thoughts_total (ts : list pystr) (remaining : pystr) :
  extract_thoughts ts remaining =
    (if think_test remaining
     then extract_thoughts (think_body ts remaining).1 (think_body ts remaining).2
     else (ts, remaining)) ∧
  think_test (extract_thoughts ts remaining).2 = false ∧
  (think_test remaining = true →
   (think_body ts remaining).2 =
     drop (Z.to_nat (find remaining think_close) + 8) remaining ∧
   length (think_body ts remaining).2 + 8 ≤ length remaining ∧
   ((find remaining think_close < find remaining think_open)%Z →
    (think_body ts remaining).1 = ts ++ [[]])).
Proof.
  split; [apply extract_thoughts_loop|].
  split; [apply extract_thoughts_exit|].
  intros Ht. split; [by rewrite (think_body_advances ts remaining Ht)|].
  split; [by apply think_body_shrinks|by apply think_body_close_first].
Qed.

Lemma extract_thoughts_total_witness :
  let s := str "</think>a<think>b</think>c" in
  think_test s = true ∧
  (find s think_close < find s think_open)%Z ∧
  think_body [] s = ([[]], str "a<think>b</think>c") ∧
  length (str "a<think>b</think>c") + 8 ≤ length s ∧
  extract_thoughts [] s = ([[]; str "b"], str "c").
Proof.
  intros s.
  assert (think_test s = true) as Ht by (vm_compute; reflexivity).
  assert (find s think_close < find s think_open)%Z as Hlt by (vm_compute; reflexivity).
  destruct (extract_thoughts_total [] s) as (_ & _ & Hiter).
  destruct (Hiter Ht) as (Hrest & Hshrink & Hclose).
  split; [exact Ht|]. split; [exact Hlt|].
  assert (think_body [] s = ([[]], str "a<think>b</think>c")) as Hbody.
  { rewrite (surjective_pairing (think_body [] s)), Hrest, (Hclose Hlt).
    vm_compute. reflexivity. }
  split; [exact Hbody|].
  split; [|vm_compute; reflexivity].
  rewrite Hbody in Hshrink. exact Hshrink.
Defined.

(** C7. An answer without thinking markers yields no thoughts, and its
    sections are those captured on the answer itself. *)
Theorem no_markers_no_thoughts (solution : pystr) :
  contains think_open solution = false →
  contains think_close solution = false →
  extract_thoughts [] solution = ([], solution) ∧
  thoughts (parse_response solution) = [] ∧
  parse_response solution = sections_of [] solution.
Proof.
  intros Ho Hc.
  assert (extract_thoughts [] solution = ([], solution)) as H.
  { rewrite extract_thoughts_loop. unfold think_test. by rewrite Ho. }
  unfold parse_response. by rewrite H.
Qed.

Lemma no_markers_no_thoughts_witness :
  let s := magnifier ++ str " Root Cause: no such directory" ++ [LF] ++
           tools ++ str " Fix: `mkdir -p build`" in
  parse_response s =
    {| thoughts := [];
       cause := Some (str "no such directory");
       fix_ := Some (str "`mkdir -p build`");
       explanation := None; risk := None; prevention := None |}.
Proof.
  intros s.
  destruct (no_markers_no_thoughts s) as (_ & _ & ->);
    [vm_compute; reflexivity|vm_compute; reflexivity|].
  vm_compute. reflexivity.
Defined.

End Thoughts.

(** ** Labelled sections *)
Section Sections.

Lemma startswith_app l x : startswith l (l ++ x) = true.
Proof. apply startswith_prefix. by exists x. Qed.

Lemma run_lit_cat l r x g :
  run (Cat (Lit l) r) (l ++ x) g = run r x g.
Proof.
  simpl. rewrite startswith_app, drop_app_length. simpl. by rewrite app_nil_r.
Qed.

Lemma run_lit_cat_none l r s g :
  startswith l s = false → run (Cat (Lit l) r) s g = [].
Proof. simpl. by intros ->. Qed.

Lemma pattern_lit sec : ∃ r, pattern sec = Cat (Lit (label sec)) r.
Proof. destruct sec; by eexists. Qed.

Lemma pattern_needs_label sec s :
  startswith (label sec) s = false → match_here (pattern sec) s = None.
Proof.
  intros H. destruct (pattern_lit sec) as [r ->].
  unfold match_here. by rewrite run_lit_cat_none.
Qed.

(** [find] returns the first position at which the text starts with the
    substring. *)
Lemma find_from_first sub pre x i :
  find_from sub (pre ++ x) i = (i + len pre)%Z →
  ∀ k, k < length pre → startswith sub (drop k (pre ++ x)) = false.
Proof.
  revert i. induction pre as [|c pre IH]; intros i H k Hk; simpl in Hk; [lia|].
  cbn [app find_from] in H.
  destruct (startswith sub (c :: pre ++ x)) eqn:E.
  - unfold len in H. simpl length in H. lia.
  - destruct k as [|k]; [done|]. simpl. eapply IH; [|lia].
    rewrite H. unfold len. simpl length. lia.
Qed.

Lemma search_from_skip r pos pre t :
  (∀ k, k < length pre → match_here r (drop k (pre ++ t)) = None) →
  search_from r pos (pre ++ t) = search_from r (pos + length pre) t.
Proof.
  revert pos. induction pre as [|c pre IH]; intros pos H.
  - simpl. by rewrite Nat.add_0_r.
  - pose proof (H 0 ltac:(simpl; lia)) as H0. rewrite drop_0 in H0.
    rewrite <- app_comm_cons in *. cbn [search_from]. rewrite H0.
    rewrite IH; [simpl; f_equal; lia|].
    intros k Hk. apply (H (S k)). simpl. lia.
Qed.

(** The lookahead [(?=l1|...|$)] succeeds exactly at a stop, and reads
    nothing. *)

Lemma run_alternatives_elem ls s g x :
  x ∈ run (foldr (λ l r, Alt (Lit l) r) Eos ls) s g → x.2 = g.
Proof.
  induction ls as [|l ls IH]; cbn [foldr].
  - simpl. destruct s as [|c [|d s]]; try by intros ?%elem_of_nil.
    + by intros ->%list_elem_of_singleton.
    + destruct (c =? LF)%N; [|by intros ?%elem_of_nil].
      by intros ->%list_elem_of_singleton.
  - cbn [run]. intros [H|H]%elem_of_app; [|by apply IH].
    destruct (startswith l s); [|by apply elem_of_nil in H].
    by apply list_elem_of_singleton in H as ->.
Qed.

Lemma run_alternatives_nil ls s g :
  run (foldr (λ l r, Alt (Lit l) r) Eos ls) s g = [] ↔
  existsb (λ l, startswith l s) ls || at_end s = false.
Proof.
  induction ls as [|l ls IH]; cbn [foldr existsb].
  - simpl. destruct s as [|c [|d s]]; simpl; try done.
    by destruct (c =? LF)%N.
  - cbn [run]. destruct (startswith l s); simpl; [done|]. apply IH.
Qed.

Lemma run_ahead_of ls s g :
  run (ahead_of ls) s g =
  if existsb (λ l, startswith l s) ls || at_end s then [(s, g)] else [].
Proof.
  unfold ahead_of. cbn [run].
  destruct (run (foldr _ Eos ls) s g) as [|[s1 g1] l] eqn:E.
  - apply (proj1 (run_alternatives_nil ls s g)) in E. by rewrite E.
  - assert ((s1, g1).2 = g) as Hg.
    { eapply run_alternatives_elem. rewrite E. apply elem_of_cons. by left. }
    simpl in Hg. subst g1.
    destruct (existsb _ ls || at_end s) eqn:E'; [done|].
    apply (proj2 (run_alternatives_nil ls s g)) in E'. congruence.
Qed.

Lemma consumed_app (m rest : pystr) : consumed (m ++ rest) rest = m.
Proof.
  unfold consumed. rewrite length_app.
  replace (length m + length rest - length rest) with (length m) by lia.
  by rewrite take_app_length.
Qed.

Lemma search_from_here r pos s rest g :
  match_here r s = Some (rest, g) →
  search_from r pos s = Some (mkMatch pos (consumed s rest) g).
Proof. intros H. destruct s; simpl; by rewrite H. Qed.

(** A lazy [.+?] hands over to what follows at the first place that
    accepts it. *)
Lemma class_runs_any_scan {T} (f : pystr → list T) (b rest : pystr) :
  (∀ b1 b2, b = b1 ++ b2 → b2 ≠ [] → f (b2 ++ rest) = []) →
  class_runs any (b ++ rest) ≫= f = class_runs any rest ≫= f.
Proof.
  induction b as [|a b IH]; intros H; [done|].
  pose proof (H [] (a :: b) eq_refl ltac:(done)) as H0.
  rewrite <- app_comm_cons in *. cbn [class_runs any]. rewrite bind_cons, H0. simpl.
  apply IH. intros b1 b2 -> Hb2. by apply (H (a :: b1) b2).
Qed.

Lemma class_runs_head p s : ∃ l, class_runs p s = s :: l.
Proof. destruct s; simpl; eauto. Qed.

Lemma runs_on_inv sec b rest :
  runs_on sec b rest = true →
  ∀ b1 b2, b = b1 ++ b2 → b2 ≠ [] → at_stop sec (b2 ++ rest) = false.
Proof.
  induction b as [|a b IH]; intros H b1 b2 Hb Hb2.
  - by destruct b1, b2.
  - cbn [runs_on] in H. apply andb_true_iff in H as [H1 H2].
    destruct b1 as [|a1 b1]; simpl in Hb.
    + subst b2. by apply negb_true_iff in H1.
    + injection Hb as -> ->. by eapply IH.
Qed.

(** A greedy [[^\n]+] reads to the end of the line. *)
Lemma class_runs_last p (b rest : pystr) :
  forallb p b = true →
  match rest with [] => true | d :: _ => negb (p d) end = true →
  last (class_runs p (b ++ rest)) = Some rest.
Proof.
  intros Hb Hrest. induction b as [|a b IH].
  - destruct rest as [|d r]; [done|]. simpl.
    apply negb_true_iff in Hrest. by rewrite Hrest.
  - simpl in Hb. apply andb_true_iff in Hb as [Ha Hb].
    rewrite <- app_comm_cons. cbn [class_runs]. rewrite Ha, last_cons, IH; done.
Qed.

Lemma runs_on_fix_line b rest :
  runs_on Fix b rest = true → forallb (not_one LF) b = true.
Proof.
  induction b as [|a b IH]; [done|]. cbn [runs_on forallb]. simpl at_stop.
  intros [H1 H2]%andb_true_iff. apply andb_true_iff. split; [done|by apply IH].
Qed.

Lemma head_fmap {A B} (f : A → B) (l : list A) : head (f <$> l) = f <$> head l.
Proof. by destruct l. Qed.

(** What each pattern reads right behind its label. *)
Lemma match_behind_label sec c b rest :
  delimited sec (c :: b) rest = true →
  ∃ g, match_here (pattern sec) (label sec ++ (c :: b) ++ rest) = Some (rest, g) ∧
       g !! 1 = Some (c :: b).
Proof.
  unfold delimited. intros [[Hc Hb]%andb_true_iff Hrest]%andb_true_iff.
  unfold match_here.
  destruct (decide (sec = Fix)) as [->|Hsec].
  - (* the fix: the backtick alternative fails, [[^\n]+] reads the line *)
    apply andb_true_iff in Hc as [Hbt Hlf].
    unfold pattern. rewrite run_lit_cat.
    rewrite <- app_comm_cons. cbn [run]. unfold rep_rests. cbn [class_runs].
    apply negb_true_iff in Hbt.
    change (one backtick c) with (c =? backtick)%N. rewrite Hbt.
    change (not_one LF c) with (negb (c =? LF)%N). rewrite Hlf.
    simpl drop. simpl take.
    rewrite reverse_nil. cbn [fmap list_fmap mbind list_bind app].
    rewrite !head_fmap, head_reverse, drop_0.
    rewrite (class_runs_last (not_one LF) b rest).
    + simpl. eexists. split; [done|].
      rewrite lookup_insert_eq. f_equal.
      apply (consumed_app (c :: b) rest).
    + by apply (runs_on_fix_line b rest).
    + simpl in Hrest. destruct rest as [|d r]; [done|]. unfold not_one.
      by rewrite Hrest.
  - (* the other sections: [.+?] up to the lookahead *)
    assert (pattern sec =
            (Lit (label sec) >> Group 1 (Rep false 1 None any) >>
             ahead_of (stops sec))%re) as -> by (by destruct sec).
    assert (∀ s, at_stop sec s =
                 existsb (λ l, startswith l s) (stops sec) || at_end s) as Hstop
      by (by destruct sec).
    rewrite run_lit_cat. rewrite <- app_comm_cons.
    cbn [run]. unfold rep_rests. cbn [class_runs any]. simpl drop.
    rewrite !list_fmap_bind, drop_0.
    rewrite class_runs_any_scan.
    + destruct (class_runs_head any rest) as [l ->]. rewrite bind_cons.
      unfold compose. rewrite run_ahead_of, <- Hstop, Hrest. simpl.
      eexists. split; [done|]. rewrite lookup_insert_eq. f_equal.
      apply (consumed_app (c :: b) rest).
    + intros b1 b2 -> Hb2. unfold compose. rewrite run_ahead_of, <- Hstop.
      by rewrite (runs_on_inv sec _ rest Hb b1 b2).
Qed.

(** C3, as the code has it.  When the first occurrence of a section's
    label is followed by [body] and then [rest], and [body] is delimited
    the way the section's pattern reads (a first character, then no stop
    until [rest], which is at a stop), the section captures exactly [body].
    A stop is a newline followed by the emoji of a later section, or the
    end of the text, for Root Cause, Technical Explanation and Potential
    Risks; for the Prevention Tip and for a Fix without backticks it is
    the first newline or the end of the text. *)
Theorem section_capture (sec : section) (pre body rest : pystr) :
  find (pre ++ label sec ++ body ++ rest) (label sec) = len pre →
  delimited sec body rest = true →
  captured sec (pre ++ label sec ++ body ++ rest) = Some body.
Proof.
  intros Hfind Hdel. destruct body as [|c b]; [done|].
  destruct (match_behind_label sec c b rest Hdel) as (g & Hm & Hg).
  unfold captured, component, search.
  rewrite search_from_skip.
  - rewrite (search_from_here _ _ _ rest g Hm). simpl. exact Hg.
  - intros k Hk. apply pattern_needs_label.
    by apply (find_from_first _ pre _ 0%Z).
Qed.

Lemma section_capture_witness :
  captured Prevention
    (str "ok" ++ [LF] ++ label Prevention ++ str "quote the path" ++
     [LF] ++ str "and retry") = Some (str "quote the path") ∧
  captured Fix
    (label Fix ++ str "mkdir -p build" ++ [LF] ++ str "cd build")
    = Some (str "mkdir -p build") ∧
  captured Cause
    (label Cause ++ str "the directory" ++ [LF] ++ str "is missing" ++
     LF :: label Fix ++ str "mkdir x")
    = Some (str "the directory" ++ [LF] ++ str "is missing").
Proof.
  split; [|split].
  - apply (section_capture Prevention (str "ok" ++ [LF]) (str "quote the path")
             ([LF] ++ str "and retry")); vm_compute; reflexivity.
  - apply (section_capture Fix [] (str "mkdir -p build") ([LF] ++ str "cd build"));
      vm_compute; reflexivity.
  - apply (section_capture Cause [] (str "the directory" ++ [LF] ++ str "is missing")
             (LF :: label Fix ++ str "mkdir x")); vm_compute; reflexivity.
Defined.

(** C3, as stated, fails: a prevention tip and a fix without backticks
    are captured up to the end of their first line only, not up to the
    next label or the end of the text. *)
Lemma multiline_sections_cut_short :
  let tip := label Prevention ++ str "quote the path" ++ [LF] ++ str "and retry" in
  let cmd := label Fix ++ str "mkdir -p build" ++ [LF] ++ str "cd build" ++
             LF :: label Prevention ++ str "none" in
  captured Prevention tip = Some (str "quote the path") ∧
  spec_section Prevention tip =
    Some (str "quote the path" ++ [LF] ++ str "and retry") ∧
  captured Prevention tip ≠ spec_section Prevention tip ∧
  captured Fix cmd = Some (str "mkdir -p build") ∧
  spec_section Fix cmd =
    Some (str "mkdir -p build" ++ [LF] ++ str "cd build" ++ [LF]) ∧
  captured Fix cmd ≠ spec_section Fix cmd.
Proof. repeat split; vm_compute; done. Qed.

End Sections.

(** ** The manual-page excerpt *)
Section Manual.
Context `{B : Builtins}.

(** The scan stops once more than ten lines are collected, so it returns at
    most eleven. *)
Lemma scan_manual_length lines sections current :
  length (scan_manual lines sections current) ≤ Nat.max (S (length sections)) 11.
Proof.
  revert sections current. induction lines as [|line lines IH]; intros sections current.
  - simpl. lia.
  - cbn [scan_manual].
    destruct (is_header line).
    + destruct (10 <? _) eqn:E.
      * apply Nat.ltb_lt in E. rewrite length_app in *. simpl in *. lia.
      * apply Nat.ltb_ge in E. etrans; [apply IH|].
        rewrite length_app in *. simpl in *. lia.
    + destruct (_ && _).
      * destruct (10 <? _) eqn:E.
        -- apply Nat.ltb_lt in E. rewrite length_app in *. simpl in *. lia.
        -- apply Nat.ltb_ge in E. etrans; [apply IH|].
           rewrite length_app in *. simpl in *. lia.
      * destruct (10 <? _) eqn:E; [lia|apply IH].
Qed.

Lemma scan_manual_at_most_eleven lines :
  length (scan_manual lines [] None) ≤ 11.
Proof. etrans; [apply scan_manual_length|]. simpl. lia. Qed.

End Manual.

(** C4. On a manual page with a header and twelve indented lines the
    excerpt holds eleven lines: the size test [len(sections) > 10] only
    stops the scan after the eleventh line has been collected. *)
Theorem man_page_eleven_lines :
  let excerpt :=
    get_man_page (B := ascii_builtins) (world_answering long_manual []) (str "ls") in
  excerpt =
    join [LF] [str "NAME"; str "l1"; str "l2"; str "l3"; str "l4"; str "l5";
               str "l6"; str "l7"; str "l8"; str "l9"; str "l10"] ∧
  length (split_on LF excerpt) = 11.
Proof. split; vm_compute; reflexivity. Qed.

(** ** Context collectors *)
Section Collectors.
Context `{B : Builtins}.

(** The collectors that keep their calls inside [try] absorb a failure and
    return their default; so does [_get_file_context] for a directory
    that can be named and cannot be listed. *)
Lemma collectors_absorb_failures (w : World) (command cwd : pystr) (e : exn) :
  (∀ argv, check_output w argv = Raised e) →
  (∀ cmd, run_captured w cmd = Raised e) →
  getcwd w = Ok cwd → listdir w cwd = Raised e →
  get_process_tree w = [] ∧
  get_network_state w = [] ∧
  get_git_context w = ∅ ∧
  get_man_page w command = str "Error retrieving manual page" ∧
  get_file_context w = Ok [].
Proof.
  intros Hco Hrc Hcwd Hls.
  unfold get_process_tree, get_network_state, get_git_context, get_man_page,
    get_file_context.
  rewrite !Hco, !Hrc, Hcwd. cbn [mbind outcome_bind]. by rewrite Hls.
Qed.

(** C5. When the working directory cannot be read, [_get_file_context]
    raises instead of returning its default; the exception aborts
    [_get_additional_context], and [run_command] ends with the error
    notice and exit code 1 without any analysis. *)
Theorem file_context_raises_without_cwd (self : ErrorInterceptor)
    (command : list pystr) (w : World) (e : exn) (code : Z) :
  getcwd w = Raised e →
  run_live w (join (str " ") command) = Ok code → code ≠ 0%Z →
  get_file_context w = Raised e ∧
  get_additional_context self w = Raised e ∧
  (run_command self command w).1.2 = [ExecutionErrorNotice e] ∧
  (run_command self command w).2 = 1%Z.
Proof.
  intros Hcwd Hrun Hcode.
  assert (get_file_context w = Raised e) as Hfc.
  { unfold get_file_context. by rewrite Hcwd. }
  assert (∀ s, get_additional_context s w = Raised e) as Hac.
  { intros s. unfold get_additional_context. by rewrite Hfc. }
  split; [done|]. split; [done|].
  unfold run_command.
  assert (last_command (run_command_record self command) = join (str " ") command)
    as ->.
  { unfold run_command_record. simpl. by destruct (match _ with [] => _ | _ => _ end). }
  rewrite Hrun. destruct (code =? 0)%Z eqn:E; [apply Z.eqb_eq in E; lia|].
  by rewrite Hac.
Qed.

End Collectors.

Lemma file_context_raises_without_cwd_witness :
  get_file_context world_without_cwd = Raised FileNotFoundError ∧
  get_additional_context init world_without_cwd
    = Raised FileNotFoundError ∧
  (run_command (B := ascii_builtins) init [str "ls"; str "/nonexistent"]
     world_without_cwd).1.2 = [ExecutionErrorNotice FileNotFoundError] ∧
  (run_command (B := ascii_builtins) init [str "ls"; str "/nonexistent"]
     world_without_cwd).2 = 1%Z.
Proof.
  apply (file_context_raises_without_cwd (B := ascii_builtins) init
           [str "ls"; str "/nonexistent"] world_without_cwd FileNotFoundError 2%Z);
    [reflexivity|reflexivity|lia].
Defined.

(** ** The assembled error context *)
Section Assembly.
Context `{B : Builtins}.

(** Standard error comes first; standard output follows on a new line. *)
Lemma get_full_error_output_merge a n (out err : pystr) :
  get_full_error_output (mkProcess a n (PStr out) (PStr err)) =
  Ok (sanitize (err ++ if nonempty out then LF :: out else [])).
Proof.
  unfold get_full_error_output. simpl.
  destruct err as [|c err], out as [|d out]; simpl; by rewrite ?app_nil_r.
Qed.

(** The fragments collected by [_get_additional_context] do not use the
    keys written by [_handle_error]. *)
Lemma get_additional_context_keys self w context :
  get_additional_context self w = Ok context →
  context !! "command"%string = None ∧
  context !! "error_output"%string = None ∧
  context !! "exit_code"%string = None.
Proof.
  assert (∀ k : string,
            k ∉ ["git_status"; "git_remotes"]%string →
            get_git_context w !! k = None) as Hgit.
  { intros k Hk. unfold get_git_context.
    destruct (run_captured w (str "git status --porcelain")) as [r1|];
      cbv [try_except mbind outcome_bind]; [|apply lookup_empty].
    destruct (run_captured w (str "git remote -v")) as [r2|];
      [|apply lookup_empty].
    rewrite lookup_insert_ne, lookup_singleton_ne; [done| |];
      intros <-; apply Hk; rewrite !elem_of_cons; auto. }
  unfold get_additional_context.
  destruct (get_file_context w) as [fc|e]; cbv [mbind outcome_bind]; [|done].
  destruct (startswith (str "git ") (last_command self)); intros Heq;
    injection Heq as <-.
  - repeat split; apply lookup_union_None;
      (split; [apply Hgit; by rewrite !elem_of_cons, elem_of_nil; intros [|[|]]
              |by simplify_map_eq]).
  - repeat split; by simplify_map_eq.
Qed.

(** C8. For the failed [ls /nonexistent] with empty standard output and
    the given standard error, the assembled context carries that error
    text, the command and the reported exit code. *)
Theorem ls_nonexistent_context (self : ErrorInterceptor) (w : World)
    (context : gmap string pyval) (n : Z) (cwd : pystr) :
  let command := str "ls /nonexistent" in
  let message :=
    str "ls: cannot access '/nonexistent': No such file or directory" in
  let result := mkProcess command n (PStr []) (PStr message) in
  last_command self = command →
  getcwd w = Ok cwd →
  context !! "command"%string = None →
  context !! "error_output"%string = None →
  context !! "exit_code"%string = None →
  get_full_error_output result = Ok message ∧
  ∃ error_context,
    assemble_context self result context w = Ok error_context ∧
    error_context !! "error_output"%string = Some (VStr message) ∧
    error_context !! "command"%string = Some (VStr command) ∧
    error_context !! "exit_code"%string = Some (VInt n).
Proof.
  intros command message result Hcmd Hcwd Hc1 Hc2 Hc3.
  assert (sanitize (message ++ []) = message) as Hsan by (vm_compute; reflexivity).
  assert (get_full_error_output result = Ok message) as Hout.
  { unfold result. rewrite get_full_error_output_merge. simpl nonempty. cbv iota.
    by rewrite Hsan. }
  split; [done|].
  unfold assemble_context. rewrite Hout, Hcwd, Hcmd. simpl mbind.
  change (split command) with [str "ls"; str "/nonexistent"].
  eexists. split; [reflexivity|].
  rewrite !lookup_insert_ne by done.
  rewrite !lookup_union_r by done.
  repeat split; by simplify_map_eq.
Qed.

Lemma env_vars_ignore_debug v w :
  get_relevant_env_vars (with_debug v w) = get_relevant_env_vars w.
Proof.
  unfold get_relevant_env_vars, getenv_default. cbn [fmap list_fmap].
  destruct v as [x|]; cbn [with_debug environ];
    by rewrite ?lookup_insert_ne, ?lookup_delete_ne by done.
Qed.

Lemma additional_context_ignores_debug self v w :
  get_additional_context self (with_debug v w) = get_additional_context self w.
Proof.
  unfold get_additional_context. by rewrite env_vars_ignore_debug.
Qed.

Lemma without_dump_app evs1 evs2 :
  without_dump (evs1 ++ evs2) = without_dump evs1 ++ without_dump evs2.
Proof. unfold without_dump. apply List.filter_app. Qed.

(** With the flag, [_handle_error] shows the dump first and then does what
    it does without the flag. *)
Lemma handle_error_with_debug self result context v w :
  ∃ dump,
    Forall (λ ev, is_dump ev = true) dump ∧
    handle_error self result context (with_debug v w) =
      (dump ++ without_dump (handle_error self result context w).1,
       (handle_error self result context w).2).
Proof.
  unfold handle_error.
  change (assemble_context self result context (with_debug v w))
    with (assemble_context self result context w).
  destruct (assemble_context self result context w) as [error_context|e].
  2:{ exists []. by split. }
  change (get_error_solution (with_debug v w)) with (get_error_solution w).
  exists (if debug_enabled (with_debug v w)
          then [DebugDump (yaml_dump error_context)] else []).
  split; [destruct (debug_enabled (with_debug v w)); by repeat constructor|].
  destruct (get_error_solution w error_context) as [solution|e];
    cbn [fst snd]; rewrite !without_dump_app; f_equal.
  - rewrite <- !app_assoc. f_equal.
    destruct (debug_enabled w); cbn; f_equal; f_equal;
      by destruct solution as [[|c s]|].
  - f_equal. by destruct (debug_enabled w).
Qed.

Lemma without_dump_dumps dump evs :
  Forall (λ ev, is_dump ev = true) dump →
  without_dump (dump ++ without_dump evs) = without_dump evs.
Proof.
  intros Hd. rewrite without_dump_app.
  assert (without_dump dump = []) as ->.
  { induction Hd as [|ev dump Hev _ IH]; [done|].
    unfold without_dump in *. simpl. by rewrite Hev. }
  unfold without_dump. simpl.
  induction evs as [|ev evs IH]; [done|]. simpl.
  destruct (negb (is_dump ev)) eqn:E; simpl; rewrite ?E; by rewrite IH.
Qed.

Lemma handle_error_ignores_debug self result context v w :
  without_dump (handle_error self result context (with_debug v w)).1 =
    without_dump (handle_error self result context w).1 ∧
  (handle_error self result context (with_debug v w)).2 =
    (handle_error self result context w).2.
Proof.
  destruct (handle_error_with_debug self result context v w) as (dump & Hd & ->).
  split; [by apply without_dump_dumps|done].
Qed.

Lemma run_command_ignores_debug self command v w :
  without_dump (run_command self command (with_debug v w)).1.2 =
    without_dump (run_command self command w).1.2 ∧
  (run_command self command (with_debug v w)).2 = (run_command self command w).2.
Proof.
  unfold run_command. rewrite additional_context_ignores_debug.
  change (run_live (with_debug v w)) with (run_live w).
  destruct (run_live w _) as [code|e]; [|done].
  destruct (code =? 0)%Z; [done|].
  destruct (get_additional_context _ w) as [ctx|e]; [|done].
  set (self' := set_context_cache _ ctx). set (p := mkProcess _ _ _ _).
  destruct (handle_error_ignores_debug self' p (context_cache self') v w) as [H1 H2].
  destruct (handle_error self' p (context_cache self') (with_debug v w)) as [evs1 [e1|]],
    (handle_error self' p (context_cache self') w) as [evs2 [e2|]];
    simpl in *; try done.
  - injection H2 as ->. by rewrite !without_dump_app, H1.
Qed.

(** C9. Setting, changing or unsetting [SHELLSAGE_DEBUG] changes neither
    the assembled context nor what is submitted, shown or raised
    afterwards: the events of the two runs differ at most by the dump. *)
Theorem debug_flag_noninterference (self : ErrorInterceptor)
    (result : CompletedProcess) (context : gmap string pyval) (w : World)
    (v1 v2 : option pystr) :
  let w1 := with_debug v1 w in
  let w2 := with_debug v2 w in
  assemble_context self result context w1 = assemble_context self result context w2 ∧
  without_dump (handle_error self result context w1).1 =
    without_dump (handle_error self result context w2).1 ∧
  (handle_error self result context w1).2 = (handle_error self result context w2).2 ∧
  (∀ command,
     without_dump (run_command self command w1).1.2 =
       without_dump (run_command self command w2).1.2 ∧
     (run_command self command w1).2 = (run_command self command w2).2).
Proof.
  intros w1 w2. subst w1 w2. split; [reflexivity|].
  destruct (handle_error_ignores_debug self result context v1 w) as [H1 H1'].
  destruct (handle_error_ignores_debug self result context v2 w) as [H2 H2'].
  split; [by rewrite H1, H2|]. split; [by rewrite H1', H2'|].
  intros command.
  destruct (run_command_ignores_debug self command v1 w) as [R1 R1'].
  destruct (run_command_ignores_debug self command v2 w) as [R2 R2'].
  split; [by rewrite R1, R2|by rewrite R1', R2'].
Qed.

End Assembly.

Lemma ls_nonexistent_context_witness :
  let command := str "ls /nonexistent" in
  let message :=
    str "ls: cannot access '/nonexistent': No such file or directory" in
  ∃ error_context,
    assemble_context (B := ascii_builtins) (auto_analyze_record init command)
      (mkProcess command 2 (PStr []) (PStr message)) ∅
      (world_answering [] message) = Ok error_context ∧
    error_context !! "error_output"%string = Some (VStr message) ∧
    error_context !! "command"%string = Some (VStr command) ∧
    error_context !! "exit_code"%string = Some (VInt 2).
Proof.
  intros command message.
  pose proof (ls_nonexistent_context (B := ascii_builtins)
                (auto_analyze_record init command)
                (world_answering [] message) ∅ 2 (str "/home/user")) as H.
  cbv zeta in H.
  destruct H as (_ & H); [reflexivity|reflexivity|reflexivity|reflexivity|reflexivity|].
  exact H.
Defined.

(** * Further properties *)

(** ** Relevant files *)
Section RelevantFiles.

Lemma collect_files_take cmds files :
  length files < 3 →
  collect_files cmds files = files ++ take (3 - length files) (omap file_of cmds).
Proof.
  revert files. induction cmds as [|cmd cmds IH]; intros files Hlen.
  - simpl. by rewrite take_nil, app_nil_r.
  - cbn [collect_files omap list_omap]. unfold file_of at 1.
    destruct (split cmd) as [|first rest] eqn:E; [by apply IH|].
    destruct (bool_decide (first ∈ file_commands)); [|by apply IH].
    rewrite length_app. simpl length.
    destruct (3 <=? length files + 1) eqn:E3.
    + apply Nat.leb_le in E3.
      replace (3 - length files) with 1 by lia. cbn [take]. by rewrite take_0.
    + apply Nat.leb_gt in E3. rewrite IH by (rewrite length_app; simpl; lia).
      rewrite length_app. simpl length. rewrite <- app_assoc. f_equal.
      replace (3 - length files) with (S (3 - (length files + 1))) by lia.
      done.
Qed.

(** X1. The relevant files are the last words of the three most recent
    earlier history entries that start with a file command, most recent
    first; the entry submitted last is not looked at, and there are never
    more than three. *)
Theorem relevant_files_most_recent_three (self : ErrorInterceptor) :
  get_relevant_files_from_history self =
    take 3 (omap file_of (reverse (removelast (history self)))) ∧
  length (get_relevant_files_from_history self) ≤ 3.
Proof.
  assert (get_relevant_files_from_history self =
          take 3 (omap file_of (reverse (removelast (history self))))) as ->.
  { unfold get_relevant_files_from_history.
    by rewrite collect_files_take by (simpl; lia). }
  split; [done|]. rewrite length_take. lia.
Qed.

End RelevantFiles.

(** ** Collected fragments *)
Section Fragments.

Lemma env_lookup_other name v w (k : string) :
  k ≠ name → environ (set_env name v w) !! k = environ w !! k.
Proof.
  intros Hk. destruct v as [x|]; cbn [set_env environ];
    [by rewrite lookup_insert_ne|by rewrite lookup_delete_ne].
Qed.

(** X2. The environment snapshot holds exactly the six allowed names, in
    order, with the empty string for a variable that is not set; setting,
    changing or unsetting any other variable leaves the snapshot as it
    is. *)
Theorem env_snapshot_allow_list (w : World) (name : string) (v : option pystr) :
  name ∉ env_names →
  (get_relevant_env_vars w).*1 = env_names ∧
  (∀ k, k ∈ env_names → environ w !! k = None →
        (k, []) ∈ get_relevant_env_vars w) ∧
  get_relevant_env_vars (set_env name v w) = get_relevant_env_vars w.
Proof.
  intros Hname. split; [done|]. split.
  - intros k Hk Hunset. unfold get_relevant_env_vars.
    apply list_elem_of_fmap. exists k. split; [|exact Hk].
    unfold getenv_default. by rewrite Hunset.
  - unfold get_relevant_env_vars, getenv_default.
    apply list_fmap_ext. intros i k Hk. f_equal. f_equal.
    apply env_lookup_other. intros ->. apply Hname.
    by eapply list_elem_of_lookup_2.
Qed.

Lemma env_snapshot_allow_list_witness :
  let w := set_env "HOME" (Some (str "/home/user")) (world_answering [] []) in
  (get_relevant_env_vars w).*1 = env_names ∧
  ("PATH"%string, []) ∈ get_relevant_env_vars w ∧
  get_relevant_env_vars (set_env "API_KEY" (Some (str "secret")) w) =
    get_relevant_env_vars w.
Proof.
  intros w.
  destruct (env_snapshot_allow_list w "API_KEY" (Some (str "secret")))
    as (H1 & H2 & H3).
  { unfold env_names. rewrite !elem_of_cons, elem_of_nil.
    intros [?|[?|[?|[?|[?|[?|[]]]]]]]; discriminate. }
  split; [exact H1|]. split; [|exact H3].
  apply H2; [|reflexivity].
  unfold env_names. rewrite !elem_of_cons. auto.
Defined.

Lemma lastn_length {A} (n : nat) (l : list A) : length (lastn n l) ≤ n.
Proof. unfold lastn. rewrite length_drop. lia. Qed.

Lemma lastn_suffix {A} (n : nat) (l : list A) : lastn n l `suffix_of` l.
Proof. apply suffix_drop. Qed.

(** X3. The process tree holds at most the last ten lines of the listing
    and the network state at most its first five lines; each is empty when
    its command fails. *)
Theorem process_and_network_bounded (w : World) :
  length (get_process_tree w) ≤ 10 ∧
  length (get_network_state w) ≤ 5 ∧
  match check_output w [str "ps"; str "-ef"; str "--forest"] with
  | Ok out => get_process_tree w `suffix_of` split_on LF (strip out)
  | Raised _ => get_process_tree w = []
  end ∧
  match check_output w [str "ss"; str "-tulpn"] with
  | Ok out => get_network_state w `prefix_of` split_on LF (strip out)
  | Raised _ => get_network_state w = []
  end.
Proof.
  unfold get_process_tree, get_network_state.
  destruct (check_output w [str "ps"; _; _]) as [ps|e1],
           (check_output w [str "ss"; _]) as [ss|e2];
    cbn [mbind outcome_bind try_except];
    repeat split;
    first [apply lastn_length | apply lastn_suffix | apply prefix_take
          | rewrite length_take; lia | simpl; lia | done].
Qed.

End Fragments.

Section FileContext.

Lemma filter_take_sound {A} (p : A → bool) (n : nat) (l : list A) (x : A) :
  x ∈ take n (List.filter p l) → x ∈ l ∧ p x = true.
Proof.
  intros Hx. apply (subseteq_take n) in Hx.
  apply list_elem_of_In, List.filter_In in Hx as [Hin Hp].
  split; [by apply list_elem_of_In|done].
Qed.

(** X4. In a readable working directory the file context lists at most
    ten names and at most five names, in listing order; every name under
    [files] is an entry of the directory that is a regular file and every
    name under [dirs] an entry that is a directory.  When the directory
    cannot be listed the context is the empty dictionary. *)
Theorem file_context_listing (w : World) (cwd : pystr) :
  getcwd w = Ok cwd →
  match listdir w cwd with
  | Ok names =>
      ∃ files dirs,
        get_file_context w = Ok [("files"%string, files); ("dirs"%string, dirs)] ∧
        length files ≤ 10 ∧ length dirs ≤ 5 ∧
        files `sublist_of` names ∧ dirs `sublist_of` names ∧
        (∀ f, f ∈ files → isfile w f = true) ∧
        (∀ d, d ∈ dirs → isdir w d = true)
  | Raised _ => get_file_context w = Ok []
  end.
Proof.
  intros Hcwd. unfold get_file_context. rewrite Hcwd. cbn [mbind outcome_bind].
  destruct (listdir w cwd) as [names|e]; cbn [mbind outcome_bind try_except]; [|done].
  eexists _, _. split; [reflexivity|].
  split; [rewrite length_take; lia|]. split; [rewrite length_take; lia|].
  assert (∀ p : pystr → bool, List.filter p names `sublist_of` names) as Hsub.
  { intros p. induction names as [|a names IH]; simpl; [done|].
    destruct (p a); [by apply sublist_skip|by apply sublist_cons]. }
  split; [etrans; [apply sublist_take|apply Hsub]|].
  split; [etrans; [apply sublist_take|apply Hsub]|].
  split; intros x Hx; by apply filter_take_sound in Hx as [_ ?].
Qed.

Lemma file_context_listing_witness :
  let w := {| environ := ∅; getcwd := Ok (str "/srv");
              listdir := λ _, Ok [str "a.txt"; str "src"; str "b.txt"];
              isfile := λ n, bool_decide (n ∈ [str "a.txt"; str "b.txt"]);
              isdir := λ n, bool_decide (n = str "src");
              run_live := λ _, Ok 0%Z;
              run_captured := λ _, Raised FileNotFoundError;
              check_output := λ _, Raised FileNotFoundError;
              get_error_solution := λ _, Ok None |} in
  ∃ files dirs,
    get_file_context w = Ok [("files"%string, files); ("dirs"%string, dirs)] ∧
    length files ≤ 10 ∧ length dirs ≤ 5 ∧
    files `sublist_of` [str "a.txt"; str "src"; str "b.txt"] ∧
    dirs `sublist_of` [str "a.txt"; str "src"; str "b.txt"] ∧
    (∀ f, f ∈ files → isfile w f = true) ∧
    (∀ d, d ∈ dirs → isdir w d = true).
Proof. intros w. exact (file_context_listing w (str "/srv") eq_refl). Defined.

End FileContext.

Set Warnings "-clear-no-such-hyp".

(** ** The collected context and the two entry points *)
Section EntryPoints.
Context `{B : Builtins}.

Lemma git_context_dom w :
  dom (get_git_context w) = ∅ ∨ dom (get_git_context w) = git_keys.
Proof.
  unfold get_git_context.
  destruct (run_captured w (str "git status --porcelain")) as [r1|],
           (run_captured w (str "git remote -v")) as [r2|];
    cbn [mbind outcome_bind try_except]; try (left; apply dom_empty_L).
  right. rewrite dom_insert_L, dom_singleton_L. unfold git_keys. set_solver.
Qed.

(** X5. In a readable working directory [_get_additional_context] returns
    a dictionary that always holds the four fragments, holds nothing but
    them and the two git entries, holds exactly the four fragments when the
    last command does not start with [git ], and holds the two git entries
    together or not at all. *)
Theorem additional_context_keys (self : ErrorInterceptor) (w : World)
    (cwd : pystr) :
  getcwd w = Ok cwd →
  ∃ context,
    get_additional_context self w = Ok context ∧
    fragment_keys ⊆ dom context ∧
    dom context ⊆ fragment_keys ∪ git_keys ∧
    (startswith (str "git ") (last_command self) = false →
     dom context = fragment_keys) ∧
    ("git_status"%string ∈ dom context ↔ "git_remotes"%string ∈ dom context).
Proof.
  intros Hcwd. unfold get_additional_context, get_file_context.
  rewrite Hcwd. cbn [mbind outcome_bind].
  eexists. split; [reflexivity|].
  set (fc := try_except _ _).
  assert (dom ({[ "env_vars"%string := VStrDict (get_relevant_env_vars w);
                  "process_tree"%string := VList (get_process_tree w);
                  "file_context"%string := VListDict fc;
                  "network_state"%string := VList (get_network_state w) ]}
               : gmap string pyval) = fragment_keys) as Hdom.
  { rewrite !dom_insert_L, dom_singleton_L. unfold fragment_keys. set_solver. }
  destruct (startswith (str "git ") (last_command self)).
  - rewrite dom_union_L, Hdom.
    destruct (git_context_dom w) as [-> | ->]; unfold fragment_keys, git_keys;
      repeat split; try done; set_solver.
  - rewrite Hdom. unfold fragment_keys, git_keys. repeat split; try done; set_solver.
Qed.

Lemma additional_context_total (self : ErrorInterceptor) (w : World) (cwd : pystr) :
  getcwd w = Ok cwd → ∃ context, get_additional_context self w = Ok context.
Proof.
  intros Hcwd. unfold get_additional_context, get_file_context.
  rewrite Hcwd. cbn [mbind outcome_bind]. eauto.
Qed.

Lemma additional_context_keys_witness :
  let self := auto_analyze_record init (str "git push") in
  let w := world_answering (str "M a.txt") [] in
  ∃ context,
    get_additional_context self w = Ok context ∧
    fragment_keys ⊆ dom context ∧
    dom context ⊆ fragment_keys ∪ git_keys ∧
    (startswith (str "git ") (last_command self) = false →
     dom context = fragment_keys) ∧
    ("git_status"%string ∈ dom context ↔ "git_remotes"%string ∈ dom context).
Proof.
  intros self w. exact (additional_context_keys self w (str "/home/user") eq_refl).
Defined.

Lemma record_last_command self command :
  last_command (run_command_record self command) = join (str " ") command.
Proof.
  unfold run_command_record. simpl. by destruct (match _ with [] => _ | _ => _ end).
Qed.


Lemma handle_error_submits self result context w error_context :
  assemble_context self result context w = Ok error_context →
  Submitted error_context ∈ (handle_error self result context w).1.
Proof.
  intros Hasm. unfold handle_error. rewrite Hasm.
  destruct (get_error_solution w error_context) as [solution|e]; cbn [fst];
    rewrite !elem_of_app, !elem_of_cons; auto.
Qed.

(** X7. When [run_command] analyses a failed command in a readable working
    directory, the context it submits names the joined command and the
    exit code of the child, and its error output is always the empty
    string: the child wrote to the inherited streams, so nothing was
    captured.  The collected fragments are stored in the cache. *)
Theorem run_command_submits_empty_error_output (self : ErrorInterceptor)
    (command : list pystr) (w : World) (code : Z) (cwd : pystr) :
  run_live w (join (str " ") command) = Ok code → code ≠ 0%Z →
  getcwd w = Ok cwd →
  ∃ error_context,
    Submitted error_context ∈ (run_command self command w).1.2 ∧
    error_context !! "error_output"%string = Some (VStr []) ∧
    error_context !! "command"%string = Some (VStr (join (str " ") command)) ∧
    error_context !! "exit_code"%string = Some (VInt code) ∧
    get_additional_context (run_command_record self command) w =
      Ok (context_cache (run_command self command w).1.1).
Proof.
  intros Hrun Hcode Hcwd. unfold run_command.
  rewrite record_last_command, Hrun.
  destruct (code =? 0)%Z eqn:Hz; [apply Z.eqb_eq in Hz; lia|].
  destruct (additional_context_total (run_command_record self command) w cwd Hcwd)
    as [ctx Hctx].
  rewrite Hctx.
  destruct (get_additional_context_keys _ _ _ Hctx) as (Hk1 & Hk2 & Hk3).
  set (self' := set_context_cache _ ctx). set (p := mkProcess _ _ _ _).
  assert (∃ error_context,
            assemble_context self' p ctx w = Ok error_context ∧
            error_context !! "error_output"%string = Some (VStr []) ∧
            error_context !! "command"%string = Some (VStr (join (str " ") command)) ∧
            error_context !! "exit_code"%string = Some (VInt code))
    as (error_context & Hasm & H1 & H2 & H3).
  { unfold assemble_context. cbn [get_full_error_output p stderr stdout pipe_truthy
      mbind outcome_bind]. rewrite Hcwd. cbn [mbind outcome_bind].
    change (sanitize []) with (@nil char).
    assert (last_command self' = join (str " ") command) as ->
      by apply record_last_command.
    eexists. split; [reflexivity|].
    destruct (split (join (str " ") command));
      rewrite ?lookup_insert_ne by done;
      rewrite !lookup_union_r by done;
      repeat split; by simplify_map_eq. }
  exists error_context. change (context_cache self') with ctx.
  pose proof (handle_error_submits self' p ctx w error_context Hasm) as Hsub.
  destruct (handle_error self' p ctx w) as [evs [e|]]; cbn [fst snd] in *;
    (split; [|done]); [|done].
  apply elem_of_app. by left.
Qed.

(** X8. [auto_analyze] does not collect any fragment: it passes the cache,
    which only [run_command] fills.  With an empty cache and a readable
    working directory the submitted context holds the entries written by
    [_handle_error] and, for a command with at least one word, the manual
    excerpt, and nothing else; its error output is the sanitised, trimmed
    standard error of a second run of the command, or the text
    [Command execution failed] when that run cannot be started.  The cache
    stays empty. *)
Theorem auto_analyze_context (self : ErrorInterceptor) (command : pystr)
    (exit_code : Z) (w : World) (cwd : pystr) :
  getcwd w = Ok cwd → context_cache self = ∅ →
  context_cache (auto_analyze self command exit_code w).1 = ∅ ∧
  ∃ error_context,
    Submitted error_context ∈ (auto_analyze self command exit_code w).2.1 ∧
    dom error_context =
      base_keys ∪ (if nonempty (split command) then {["man_excerpt"%string]} else ∅) ∧
    error_context !! "command"%string = Some (VStr command) ∧
    error_context !! "exit_code"%string = Some (VInt exit_code) ∧
    error_context !! "error_output"%string =
      Some (VStr (match run_captured w command with
                  | Ok result => sanitize (strip (c_stderr result))
                  | Raised _ => str "Command execution failed"
                  end)).
Proof.
  intros Hcwd Hcache. unfold auto_analyze. cbn [fst snd].
  assert (context_cache (auto_analyze_record self command) = ∅) as Hcache'
    by exact Hcache.
  split; [done|]. rewrite Hcache'.
  set (self' := auto_analyze_record self command).
  set (p := mkProcess _ _ _ _).
  assert (get_full_error_output p =
          Ok (match run_captured w command with
              | Ok result => sanitize (strip (c_stderr result))
              | Raised _ => str "Command execution failed"
              end)) as Hout.
  { unfold p. rewrite get_full_error_output_merge. cbn [nonempty].
    rewrite app_nil_r. unfold get_native_error.
    destruct (run_captured w command) as [r|e]; cbn [mbind outcome_bind try_except];
      first [done | f_equal; vm_compute; reflexivity]. }
  assert (∃ error_context,
            assemble_context self' p ∅ w = Ok error_context ∧
            dom error_context =
              base_keys ∪ (if nonempty (split command)
                           then {["man_excerpt"%string]} else ∅) ∧
            error_context !! "command"%string = Some (VStr command) ∧
            error_context !! "exit_code"%string = Some (VInt exit_code) ∧
            error_context !! "error_output"%string =
              Some (VStr (match run_captured w command with
                          | Ok result => sanitize (strip (c_stderr result))
                          | Raised _ => str "Command execution failed"
                          end)))
    as (error_context & Hasm & Hdom & H1 & H2 & H3).
  { unfold assemble_context. rewrite Hout, Hcwd. cbn [mbind outcome_bind].
    change (last_command self') with command. rewrite (left_id_L ∅ (∪)).
    eexists. split; [reflexivity|].
    destruct (split command) as [|base_cmd parts]; cbn [nonempty].
    - split; [|repeat split; by simplify_map_eq].
      rewrite !dom_insert_L, dom_singleton_L. unfold base_keys. set_solver.
    - rewrite !lookup_insert_ne by done.
      split; [|repeat split; by simplify_map_eq].
      rewrite !dom_insert_L, dom_singleton_L. unfold base_keys. set_solver. }
  exists error_context. split; [|done].
  by apply handle_error_submits.
Qed.

End EntryPoints.

Lemma run_command_submits_empty_error_output_witness :
  let command := [str "ls"; str "/nonexistent"] in
  ∃ error_context,
    Submitted error_context ∈
      (run_command (B := ascii_builtins) init command (world_answering [] [])).1.2 ∧
    error_context !! "error_output"%string = Some (VStr []) ∧
    error_context !! "command"%string = Some (VStr (join (str " ") command)) ∧
    error_context !! "exit_code"%string = Some (VInt 2) ∧
    get_additional_context (run_command_record init command) (world_answering [] []) =
      Ok (context_cache
            (run_command (B := ascii_builtins) init command (world_answering [] [])).1.1).
Proof.
  intros command.
  exact (run_command_submits_empty_error_output (B := ascii_builtins) init command
           (world_answering [] []) 2 (str "/home/user") eq_refl ltac:(lia) eq_refl).
Defined.

Lemma auto_analyze_context_witness :
  let message :=
    str "ls: cannot access '/nonexistent': No such file or directory" in
  let w := world_answering [] (message ++ [LF]) in
  let out := auto_analyze (B := ascii_builtins) init (str "ls /nonexistent") 2 w in
  context_cache out.1 = ∅ ∧
  ∃ error_context,
    Submitted error_context ∈ out.2.1 ∧
    dom error_context = base_keys ∪ {["man_excerpt"%string]} ∧
    error_context !! "command"%string = Some (VStr (str "ls /nonexistent")) ∧
    error_context !! "exit_code"%string = Some (VInt 2) ∧
    error_context !! "error_output"%string = Some (VStr message).
Proof.
  intros message w out.
  exact (auto_analyze_context (B := ascii_builtins) init (str "ls /nonexistent") 2
           w (str "/home/user") eq_refl eq_refl).
Defined.

(** ** Escape sequences *)
Section EscapeSequences.

(** A greedy [class*] first tries to read the whole run of the class. *)
Lemma rep_greedy_first p (xs r : pystr) :
  forallb p xs = true →
  match r with [] => true | d :: _ => negb (p d) end = true →
  ∃ l, rep_rests true 0 None p (xs ++ r) = r :: l.
Proof.
  intros Hxs Hr. apply head_Some. unfold rep_rests.
  rewrite drop_0, head_reverse. by apply class_runs_last.
Qed.

Lemma run_rep_greedy_first p r0 (xs r : pystr) g y :
  forallb p xs = true →
  match r with [] => true | d :: _ => negb (p d) end = true →
  (∃ t, run r0 r g = y :: t) →
  ∃ t, run (Cat (Rep true 0 None p) r0) (xs ++ r) g = y :: t.
Proof.
  intros Hxs Hr [t Hrun]. cbn [run]. rewrite list_fmap_bind.
  destruct (rep_greedy_first p xs r Hxs Hr) as [l ->].
  rewrite bind_cons. cbn [compose]. rewrite Hrun. cbn [app]. eauto.
Qed.

Lemma range_disjoint (lo1 hi1 lo2 hi2 c : N) :
  (hi1 < lo2)%N ∨ (hi2 < lo1)%N →
  range lo1 hi1 c = true → negb (range lo2 hi2 c) = true.
Proof.
  unfold range. intros Hd [H1 H2]%andb_true_iff.
  apply N.leb_le in H1, H2. apply negb_true_iff, andb_false_iff.
  destruct Hd; [left|right]; apply N.leb_gt; lia.
Qed.

(** A complete escape sequence is matched as a whole. *)
Lemma ansi_matches_sequence (params inters : pystr) (final : char) (rest : pystr) :
  forallb (range 48 63) params = true →
  forallb (range 32 47) inters = true →
  range 64 126 final = true →
  match_here ansi_escape (ESC :: str "[" ++ params ++ inters ++ final :: rest)
    = Some (rest, ∅).
Proof.
  intros Hp Hi Hf. unfold match_here, ansi_escape.
  change (ESC :: str "[" ++ params ++ inters ++ final :: rest)
    with ([ESC] ++ str "[" ++ params ++ inters ++ final :: rest).
  rewrite !run_lit_cat.
  assert (∃ t, run (Rep true 0 None (range 48 63) >>
                    Rep true 0 None (range 32 47) >> Class (range 64 126))%re
                 (params ++ inters ++ final :: rest) ∅ = (rest, ∅) :: t)
    as [t ->]; [|done].
  apply run_rep_greedy_first; [exact Hp| |].
  - destruct inters as [|d inters]; cbn [app].
    + by apply (range_disjoint 64 126 48 63); [right|].
    + simpl in Hi. apply andb_true_iff in Hi as [Hd _].
      by apply (range_disjoint 32 47 48 63); [left|].
  - apply run_rep_greedy_first; [exact Hi| |].
    + by apply (range_disjoint 64 126 32 47); [right|].
    + cbn [run]. rewrite Hf. eauto.
Qed.

Lemma delete_matches_plain_prefix (pre s : pystr) :
  ESC ∉ pre →
  delete_matches ansi_escape (pre ++ s) = pre ++ delete_matches ansi_escape s.
Proof.
  induction pre as [|c pre IH]; intros Hpre; [done|].
  apply not_elem_of_cons in Hpre as [Hc Hpre].
  rewrite <- !app_comm_cons, delete_matches_cons.
  rewrite ansi_no_match_without_esc by done. cbn [fmap option_fmap option_map].
  by rewrite IH.
Qed.

(** X9. A complete escape sequence (ESC, [[], parameter bytes, intermediate
    bytes, a final byte) is deleted as a whole and the text in front of it,
    when it holds no ESC, is kept: sanitising continues behind the
    sequence. *)
Theorem escape_sequence_removed (pre params inters : pystr) (final : char)
    (rest : pystr) :
  ESC ∉ pre →
  forallb (range 48 63) params = true →
  forallb (range 32 47) inters = true →
  range 64 126 final = true →
  delete_matches ansi_escape
    (pre ++ ESC :: str "[" ++ params ++ inters ++ final :: rest)
  = pre ++ delete_matches ansi_escape rest ∧
  sanitize (pre ++ ESC :: str "[" ++ params ++ inters ++ final :: rest)
  = strip (pre ++ delete_matches ansi_escape rest).
Proof.
  intros Hpre Hp Hi Hf.
  assert (delete_matches ansi_escape
            (pre ++ ESC :: str "[" ++ params ++ inters ++ final :: rest)
          = pre ++ delete_matches ansi_escape rest) as Hdel.
  { rewrite delete_matches_plain_prefix by done. f_equal.
    rewrite delete_matches_cons, ansi_matches_sequence by done.
    cbn [fmap option_fmap option_map fst].
    assert ((length rest <? length (ESC :: str "[" ++ params ++ inters ++ final :: rest))
            = true) as ->; [|done].
    apply Nat.ltb_lt. cbn [length]. rewrite !length_app. cbn [length]. lia. }
  split; [exact Hdel|]. unfold sanitize. by rewrite Hdel.
Qed.

Lemma escape_sequence_removed_witness :
  delete_matches ansi_escape
    (str "ls: " ++ ESC :: str "[" ++ str "1;31" ++ [] ++ 109%N :: str "error ")
  = str "ls: " ++ delete_matches ansi_escape (str "error ") ∧
  sanitize (str "ls: " ++ ESC :: str "[" ++ str "1;31" ++ [] ++ 109%N :: str "error ")
  = strip (str "ls: " ++ delete_matches ansi_escape (str "error ")).
Proof.
  apply (escape_sequence_removed (str "ls: ") (str "1;31") [] 109%N (str "error "));
    [compute_done|reflexivity|reflexivity|reflexivity].
Defined.

End EscapeSequences.

(** ** The manual-page excerpt, line by line *)
Section ManualLines.
Context `{B : Builtins}.

Lemma split_on_no_sep sep (s : pystr) :
  Forall (λ field, sep ∉ field) (split_on sep s).
Proof.
  induction s as [|c s IH]; cbn [split_on].
  - repeat constructor. apply not_elem_of_nil.
  - destruct (c =? sep)%N eqn:E.
    + constructor; [apply not_elem_of_nil|done].
    + apply N.eqb_neq in E.
      destruct (split_on sep s) as [|f fs]; inversion IH; subst.
      * repeat constructor. rewrite list_elem_of_singleton. congruence.
      * constructor; [|done]. rewrite elem_of_cons. naive_solver.
Qed.

Lemma split_on_plain sep (p : pystr) : sep ∉ p → split_on sep p = [p].
Proof.
  induction p as [|c p IH]; [done|]. intros [Hc Hp]%not_elem_of_cons.
  cbn [split_on]. apply N.eqb_neq in Hc. rewrite N.eqb_sym in Hc.
  by rewrite Hc, IH.
Qed.

Lemma split_on_app_sep sep (p x : pystr) :
  sep ∉ p → split_on sep (p ++ sep :: x) = p :: split_on sep x.
Proof.
  induction p as [|c p IH]; intros Hp.
  - cbn [app split_on]. by rewrite N.eqb_refl.
  - apply not_elem_of_cons in Hp as [Hc Hp].
    rewrite <- app_comm_cons. cbn [split_on]. apply N.eqb_neq in Hc.
    rewrite N.eqb_sym in Hc. by rewrite Hc, IH.
Qed.

(** Joining fields that hold no separator and splitting again gives the
    fields back. *)
Lemma split_on_join sep (fields : list pystr) :
  fields ≠ [] → Forall (λ field, sep ∉ field) fields →
  split_on sep (join [sep] fields) = fields.
Proof.
  induction fields as [|p fields IH]; [done|]. intros _ Hall.
  inversion Hall as [|? ? Hp Hrest]; subst.
  destruct fields as [|q fields]; [by apply split_on_plain|].
  change (join [sep] (p :: q :: fields)) with (p ++ sep :: join [sep] (q :: fields)).
  rewrite split_on_app_sep by done. f_equal. by apply IH.
Qed.

Lemma scan_manual_extends lines sections current :
  ∃ more,
    scan_manual lines sections current = sections ++ more ∧
    Forall (excerpt_entry lines) more ∧
    (from_option nonempty false current = false →
     match more with [] => True | e :: _ => is_header e = true end).
Proof.
  revert sections current.
  induction lines as [|line lines IH]; intros sections current.
  - exists []. cbn. by rewrite app_nil_r.
  - assert (∀ more, Forall (excerpt_entry lines) more →
                    Forall (excerpt_entry (line :: lines)) more) as Hmono.
    { intros more Hm. eapply Forall_impl; [exact Hm|].
      intros e [[? ?]|(l & ? & ? & ?)];
        [left|right; exists l]; rewrite elem_of_cons; auto. }
    cbn [scan_manual]. destruct (is_header line) eqn:Hh.
    + assert (excerpt_entry (line :: lines) line) as Hline.
      { left. split; [done|]. apply elem_of_cons. by left. }
      destruct (10 <? length (sections ++ [line])).
      * exists [line]. split; [done|].
        split; [constructor; [exact Hline|constructor]|done].
      * destruct (IH (sections ++ [line]) (Some line)) as (more & -> & Hall & _).
        exists (line :: more). rewrite <- app_assoc. split; [done|].
        split; [constructor; [done|by apply Hmono]|done].
    + destruct (from_option nonempty false current && startswith (str " ") line)
        eqn:Hc.
      * apply andb_true_iff in Hc as [Hact Hsp].
        assert (excerpt_entry (line :: lines) (strip line)) as Hline.
        { right. exists line. split; [apply elem_of_cons; by left|done]. }
        destruct (10 <? length (sections ++ [strip line])).
        -- exists [strip line]. split; [done|].
           split; [constructor; [exact Hline|constructor]|]. by rewrite Hact.
        -- destruct (IH (sections ++ [strip line]) current) as (more & -> & Hall & _).
           exists (strip line :: more). rewrite <- app_assoc. split; [done|].
           split; [constructor; [done|by apply Hmono]|]. by rewrite Hact.
      * destruct (10 <? length sections).
        -- exists []. by rewrite app_nil_r.
        -- destruct (IH sections current) as (more & -> & Hall & Hfirst).
           exists more. split; [done|]. split; [by apply Hmono|done].
Qed.

Lemma excerpt_entry_no_newline (content e : pystr) :
  excerpt_entry (split_on LF content) e → LF ∉ e.
Proof.
  pose proof (split_on_no_sep LF content) as Hall.
  rewrite Forall_forall in Hall.
  intros [[_ He]|(l & Hl & _ & ->)]; [by apply Hall|].
  intros Hin%strip_elem_of. by apply (Hall l).
Qed.

(** X10. What [_get_man_page] returns, by the outcome of running the shell
    pipeline [man <command> 2>/dev/null | col -b].  When running it raises,
    the result is the text [Error retrieving manual page]; when the
    pipeline returns a code other than 0 it is [No manual entry available].
    When the pipeline returns 0 the result is empty or its lines are at
    most eleven, the first is a header line of the output, and each is a
    header line of the output or the trimmed form of a line of the output
    that starts with a blank; on an empty output (what is left when [man]
    writes no page) the result is the empty string, not one of the two
    texts. *)
Theorem man_page_excerpt_lines (w : World) (command : pystr) :
  match run_captured w (str "man " ++ command ++ str " 2>/dev/null | col -b") with
  | Raised _ => get_man_page w command = str "Error retrieving manual page"
  | Ok result =>
      if (c_returncode result =? 0)%Z
      then (c_stdout result = [] → get_man_page w command = []) ∧
           (get_man_page w command = [] ∨
            (length (split_on LF (get_man_page w command)) ≤ 11 ∧
             (∃ h t, split_on LF (get_man_page w command) = h :: t ∧
                     is_header h = true) ∧
             Forall (excerpt_entry (split_on LF (c_stdout result)))
                    (split_on LF (get_man_page w command))))
      else get_man_page w command = str "No manual entry available"
  end.
Proof.
  unfold get_man_page.
  destruct (run_captured w _) as [result|e]; cbn [mbind outcome_bind try_except];
    [|done].
  destruct (c_returncode result =? 0)%Z; cbn [try_except]; [|done].
  split.
  { intros ->. cbn [split_on scan_manual app length Nat.ltb Nat.leb].
    by destruct (is_header []). }
  destruct (scan_manual_extends (split_on LF (c_stdout result)) [] None)
    as (more & Hscan & Hall & Hfirst).
  cbn [app] in Hscan. rewrite Hscan.
  destruct more as [|h t]; [by left|]. right.
  rewrite split_on_join; [|done|].
  - split; [|split; [|done]].
    + rewrite <- Hscan. apply scan_manual_at_most_eleven.
    + exists h, t. split; [done|]. by apply Hfirst.
  - eapply Forall_impl; [exact Hall|]. intros e. apply excerpt_entry_no_newline.
Qed.

End ManualLines.

(** ** A fix written between backticks *)
Section BacktickFix.

Lemma class_runs_ticks (k : nat) (y : pystr) :
  match y with [] => true | d :: _ => negb (one backtick d) end = true →
  length (class_runs (one backtick) (ticks k ++ y)) = S k ∧
  last (class_runs (one backtick) (ticks k ++ y)) = Some y.
Proof.
  intros Hy. unfold ticks. split.
  - induction k as [|k IH]; cbn [replicate app].
    + destruct y as [|d y]; [done|]. cbn [class_runs].
      apply negb_true_iff in Hy. by rewrite Hy.
    + cbn [class_runs]. unfold one at 1. rewrite N.eqb_refl. cbn [length].
      by rewrite IH.
  - apply class_runs_last; [|done].
    induction k as [|k IH]; [done|]. cbn [replicate forallb].
    unfold one at 1. by rewrite N.eqb_refl.
Qed.

(** A greedy [`{1,3}] in front of a text that does not start with a
    backtick first tries to read all of one to three backticks. *)
Lemma ticks_greedy_first (k : nat) (y : pystr) :
  1 ≤ k ≤ 3 →
  match y with [] => true | d :: _ => negb (one backtick d) end = true →
  ∃ l, rep_rests true 1 (Some 3) (one backtick) (ticks k ++ y) = y :: l.
Proof.
  intros Hk Hy. apply head_Some. unfold rep_rests. rewrite head_reverse.
  destruct (class_runs_ticks k y Hy) as [Hlen Hlast].
  rewrite take_ge by lia.
  destruct (class_runs (one backtick) (ticks k ++ y)) as [|a l]; [done|].
  cbn [drop]. rewrite drop_0. cbn [length] in Hlen.
  destruct l as [|b l]; [cbn in Hlen; lia|]. by rewrite last_cons_cons in Hlast.
Qed.

Lemma ticks_need_backtick (s : pystr) :
  match s with [] => true | d :: _ => negb (one backtick d) end = true →
  rep_rests true 1 (Some 3) (one backtick) s = [].
Proof.
  intros Hs. unfold rep_rests.
  destruct s as [|d s]; [done|]. cbn [class_runs].
  apply negb_true_iff in Hs. by rewrite Hs.
Qed.

Lemma lstrip_char_ticks (k : nat) (s : pystr) :
  match s with [] => true | d :: _ => negb (d =? backtick)%N end = true →
  lstrip_char backtick (ticks k ++ s) = s.
Proof.
  intros Hs. unfold ticks. induction k as [|k IH]; cbn [replicate app lstrip_char].
  - destruct s as [|d s]; [done|]. cbn [lstrip_char].
    apply negb_true_iff in Hs. by rewrite Hs.
  - by rewrite N.eqb_refl.
Qed.

Lemma reverse_ticks (k : nat) : reverse (ticks k) = ticks k.
Proof. unfold ticks. apply reverse_replicate. Qed.

Lemma strip_char_ticks (k1 k2 : nat) (body : pystr) :
  body ≠ [] → backtick ∉ body →
  strip_char backtick (ticks k1 ++ body ++ ticks k2) = body.
Proof.
  intros Hne Hnot. unfold strip_char.
  assert (∀ s : pystr, s ≠ [] → backtick ∉ s → ∀ t,
            match s ++ t with [] => true | d :: _ => negb (d =? backtick)%N end = true)
    as Hhead.
  { intros [|d s] Hs Hn t; [done|]. cbn. apply negb_true_iff, N.eqb_neq.
    intros ->. apply Hn. apply elem_of_cons. by left. }
  rewrite lstrip_char_ticks by (by apply Hhead).
  rewrite reverse_app, reverse_ticks.
  rewrite <- (app_nil_r (reverse body)), lstrip_char_ticks.
  - by rewrite app_nil_r, reverse_involutive.
  - apply Hhead.
    + intros H%(f_equal reverse). rewrite reverse_involutive in H. done.
    + by rewrite elem_of_reverse.
Qed.

(** What the fix pattern reads behind its label when the fix stands
    between backticks. *)
Lemma match_backtick_fix (k1 k2 : nat) (body rest : pystr) :
  1 ≤ k1 ≤ 3 → 1 ≤ k2 ≤ 3 → body ≠ [] → backtick ∉ body →
  match rest with [] => true | d :: _ => negb (one backtick d) end = true →
  ∃ g, match_here (pattern Fix)
         (label Fix ++ (ticks k1 ++ body ++ ticks k2) ++ rest) = Some (rest, g) ∧
       g !! 1 = Some (ticks k1 ++ body ++ ticks k2).
Proof.
  intros Hk1 Hk2 Hne Hnot Hrest. unfold match_here, pattern.
  rewrite run_lit_cat.
  assert (∀ b2 : pystr, b2 ≠ [] → b2 `suffix_of` body → ∀ t,
            match b2 ++ t with [] => true | d :: _ => negb (one backtick d) end = true)
    as Hbody.
  { intros [|d b2] Hb2 [pre ->] t; [done|]. cbn. apply negb_true_iff, N.eqb_neq.
    intros ->. apply Hnot. rewrite elem_of_app, elem_of_cons. auto. }
  set (x := (ticks k1 ++ body ++ ticks k2) ++ rest).
  assert (∃ t, run (Rep true 1 (Some 3) (one backtick) >>
                    Group 2 (Rep false 0 None any) >>
                    Rep true 1 (Some 3) (one backtick))%re x ∅
               = (rest, <[2 := body]> ∅) :: t) as [t Ht].
  { unfold x. rewrite <- !app_assoc. cbn [run]. rewrite list_fmap_bind.
    destruct (ticks_greedy_first k1 (body ++ ticks k2 ++ rest) Hk1) as [l ->];
      [by apply Hbody|].
    rewrite bind_cons. cbn [compose]. rewrite !list_fmap_bind.
    change (rep_rests false 0 None any (body ++ ticks k2 ++ rest))
      with (class_runs any (body ++ ticks k2 ++ rest)).
    rewrite (class_runs_any_scan _ body (ticks k2 ++ rest)).
    - destruct (class_runs_head any (ticks k2 ++ rest)) as [l' ->].
      rewrite bind_cons. unfold compose at 1 2.
      destruct (ticks_greedy_first k2 rest Hk2 Hrest) as [l'' ->].
      cbn [fmap list_fmap app]. rewrite consumed_app. eauto.
    - intros b1 b2 -> Hb2. unfold compose.
      rewrite ticks_need_backtick; [done|]. apply Hbody; [done|by exists b1]. }
  cbn [run]. cbn [run] in Ht. rewrite Ht. cbn [app fmap list_fmap head].
  eexists. split; [reflexivity|].
  rewrite lookup_insert_eq. f_equal. apply consumed_app.
Qed.

(** X11. A fix written between one to three backticks on each side, with a
    non-empty text in between that holds no backtick (it may span several
    lines), is captured together with its backticks, and the fix that is
    shown is the text in between. *)
Theorem fix_between_backticks (pre : pystr) (k1 k2 : nat) (body rest : pystr)
    (ts : list pystr) :
  let text := pre ++ label Fix ++ (ticks k1 ++ body ++ ticks k2) ++ rest in
  find text (label Fix) = len pre →
  1 ≤ k1 ≤ 3 → 1 ≤ k2 ≤ 3 → body ≠ [] → backtick ∉ body →
  match rest with [] => true | d :: _ => negb (one backtick d) end = true →
  captured Fix text = Some (ticks k1 ++ body ++ ticks k2) ∧
  fix_command (sections_of ts text) = Some body.
Proof.
  intros text Hfind Hk1 Hk2 Hne Hnot Hrest.
  destruct (match_backtick_fix k1 k2 body rest Hk1 Hk2 Hne Hnot Hrest)
    as (g & Hm & Hg).
  assert (captured Fix text = Some (ticks k1 ++ body ++ ticks k2)) as Hcap.
  { unfold captured, component, search, text. rewrite search_from_skip.
    - rewrite (search_from_here _ _ _ rest g Hm). exact Hg.
    - intros k Hk. apply pattern_needs_label.
      by apply (find_from_first _ pre _ 0%Z). }
  split; [exact Hcap|].
  unfold fix_command. cbn [sections_of fix_]. rewrite Hcap. cbn.
  f_equal. by apply strip_char_ticks.
Qed.

Lemma fix_between_backticks_witness :
  let body := str "mkdir -p build" ++ [LF] ++ str "cd build" in
  let text := str "ok" ++ [LF] ++ label Fix ++ (ticks 3 ++ body ++ ticks 3) ++
              [LF] ++ label Prevention ++ str "none" in
  captured Fix text = Some (ticks 3 ++ body ++ ticks 3) ∧
  fix_command (sections_of [] text) = Some body.
Proof.
  intros body text.
  apply (fix_between_backticks (str "ok" ++ [LF]) 3 3 body
           ([LF] ++ label Prevention ++ str "none") []);
    [reflexivity|lia|lia|done|compute_done|reflexivity].
Defined.

End BacktickFix.

(** ** Round trip of a synthetic answer *)
Section RoundTrip.

Lemma contains_false_drop sub (s : pystr) (k : nat) :
  contains sub s = false → startswith sub (drop k s) = false.
Proof.
  revert k. induction s as [|a s IH]; intros k; cbn [contains].
  - rewrite drop_nil. by intros [? _]%orb_false_iff.
  - intros [H1 H2]%orb_false_iff. destruct k as [|k]; [done|]. by apply IH.
Qed.

Lemma contains_intro sub (s : pystr) (k : nat) :
  startswith sub (drop k s) = true → contains sub s = true.
Proof.
  destruct (contains sub s) eqn:E; [done|].
  intros H. by rewrite (contains_false_drop sub s k E) in H.
Qed.

Lemma prefix_app_split {A} (sub t y : list A) :
  sub `prefix_of` t ++ y →
  sub `prefix_of` t ∨ ∃ v, sub = t ++ v ∧ v `prefix_of` y.
Proof.
  revert sub. induction t as [|a t IH]; intros sub Hp.
  - right. by exists sub.
  - destruct sub as [|b sub]; [left; apply prefix_nil|].
    rewrite <- app_comm_cons in Hp.
    pose proof (prefix_cons_inv_1 _ _ _ _ Hp) as ->.
    apply prefix_cons_inv_2, IH in Hp as [Hp|(v & -> & Hv)].
    + left. by apply prefix_cons.
    + right. by exists v.
Qed.

(** A marker whose first character does not occur again in it cannot start
    inside a text that does not hold it and end inside the marker that
    follows. *)
Lemma no_occurrence_before (c : char) (sub' t x : pystr) (k : nat) :
  c ∉ sub' → contains (c :: sub') t = false → k < length t →
  startswith (c :: sub') (drop k (t ++ (c :: sub') ++ x)) = false.
Proof.
  intros Hc Hno Hk. rewrite drop_app_le by lia.
  pose proof (contains_false_drop _ t k Hno) as Hstart.
  destruct (startswith (c :: sub') (drop k t ++ (c :: sub') ++ x)) eqn:E; [|done].
  apply startswith_prefix, prefix_app_split in E as [Hp|(v & Hv & Hpv)].
  - apply startswith_prefix in Hp. congruence.
  - destruct (drop k t) as [|a t'] eqn:Ht.
    { apply (f_equal length) in Ht. rewrite length_drop in Ht. simpl in Ht. lia. }
    injection Hv as <- ->. destruct v as [|d v].
    + rewrite app_nil_r in Hstart.
      assert (startswith (c :: t') (c :: t') = true) as Hs
        by (apply startswith_prefix; done).
      congruence.
    + apply prefix_cons_inv_1 in Hpv as ->.
      exfalso. apply Hc. rewrite elem_of_app, elem_of_cons. auto.
Qed.

Lemma find_from_exact sub (s : pystr) (n : nat) (i : Z) :
  (∀ k, k < n → startswith sub (drop k s) = false) →
  startswith sub (drop n s) = true → n ≤ length s →
  find_from sub s i = (i + Z.of_nat n)%Z.
Proof.
  revert s i. induction n as [|n IH]; intros s i Hbefore Hat Hlen.
  - rewrite drop_0 in Hat. destruct s; cbn [find_from]; rewrite Hat; lia.
  - destruct s as [|a s]; [simpl in Hlen; lia|].
    pose proof (Hbefore 0 ltac:(lia)) as H0. rewrite drop_0 in H0.
    cbn [find_from]. rewrite H0.
    rewrite IH; [lia| |done|simpl in Hlen; lia].
    intros k Hk. apply (Hbefore (S k)). lia.
Qed.

(** One well-formed thinking block at the start of the text: the loop test
    passes, and the iteration records the trimmed block and continues behind
    it. *)
Lemma think_block_step (ts : list pystr) (t x : pystr) :
  contains think_close t = false →
  think_test (wrap_thought t ++ x) = true ∧
  think_body ts (wrap_thought t ++ x) = (ts ++ [strip t], x).
Proof.
  intros Hno. unfold wrap_thought.
  assert (find (think_open ++ t ++ think_close ++ x) think_close
          = Z.of_nat (7 + length t)) as Hclose.
  { unfold find. rewrite (find_from_exact _ _ (7 + length t)); [lia| | |].
    - intros k Hk. destruct (decide (k < 7)) as [Hlt|Hge].
      + do 7 (destruct k as [|k]; [reflexivity|]). lia.
      + replace k with (7 + (k - 7)) by lia.
        change (drop (7 + (k - 7)) (think_open ++ t ++ think_close ++ x))
          with (drop (k - 7) (t ++ think_close ++ x)).
        apply (no_occurrence_before 60%N (str "/think>")); [compute_done|done|lia].
    - change (drop (7 + length t) (think_open ++ t ++ think_close ++ x))
        with (drop (length t) (t ++ think_close ++ x)).
      by rewrite drop_app_length.
    - rewrite !length_app. change (length think_open) with 7. lia. }
  assert (think_test ((think_open ++ t ++ think_close) ++ x) = true) as Htest.
  { unfold think_test. apply andb_true_iff. split.
    - by apply (contains_intro _ _ 0).
    - apply (contains_intro _ _ (7 + length t)). rewrite <- !app_assoc.
      change (drop (7 + length t) (think_open ++ t ++ think_close ++ x))
        with (drop (length t) (t ++ think_close ++ x)).
      by rewrite drop_app_length. }
  split; [exact Htest|].
  rewrite (think_body_advances ts _ Htest). rewrite <- !app_assoc.
  rewrite Hclose.
  change (find (think_open ++ t ++ think_close ++ x) think_open) with 0%Z.
  f_equal.
  - f_equal. f_equal. unfold slice, clamp_index.
    rewrite !length_app. change (length think_open) with 7.
    change (length think_close) with 8.
    rewrite !(proj2 (Z.ltb_ge _ 0)) by lia.
    rewrite !Z.min_l by lia.
    replace (Z.to_nat (0 + 7)) with 7 by lia.
    replace (Z.to_nat _) with (length t) by lia.
    change (drop 7 (think_open ++ t ++ think_close ++ x))
      with (t ++ think_close ++ x).
    by rewrite take_app_length.
  - replace (Z.to_nat (Z.of_nat (7 + length t)) + 8) with (7 + (length t + 8)) by lia.
    change (drop (7 + (length t + 8)) (think_open ++ t ++ think_close ++ x))
      with (drop (length t + 8) (t ++ think_close ++ x)).
    rewrite drop_app_ge by lia.
    replace (length t + 8 - length t) with 8 by lia. done.
Qed.

Lemma extract_thoughts_blocks (ts acc : list pystr) (tail : pystr) :
  Forall (λ t, contains think_close t = false) ts →
  think_test tail = false →
  extract_thoughts acc (thoughts_text ts ++ tail) = (acc ++ (strip <$> ts), tail).
Proof.
  intros Hts Htail. revert acc.
  induction Hts as [|t ts Ht _ IH]; intros acc.
  - cbn. rewrite extract_thoughts_loop, Htail. by rewrite app_nil_r.
  - unfold thoughts_text. cbn [fmap list_fmap mjoin list_join].
    rewrite <- app_assoc.
    rewrite extract_thoughts_loop.
    match goal with
    | |- context [think_test (wrap_thought t ++ ?x)] =>
        destruct (think_block_step acc t x Ht) as [Htest Hbody]
    end.
    rewrite Htest, Hbody. cbn [fst snd].
    fold (thoughts_text ts). rewrite IH. by rewrite <- app_assoc.
Qed.

Lemma sections_text_cons sec content (rest : list (section * pystr)) :
  sections_text ((sec, content) :: rest) = label sec ++ content ++ text_behind rest.
Proof. destruct rest; cbn; by rewrite ?app_nil_r. Qed.

Lemma sections_text_split before sec content after :
  sections_text (before ++ (sec, content) :: after) =
  text_before before ++ label sec ++ content ++ text_behind after.
Proof.
  induction before as [|[s0 c0] before IH]; [apply sections_text_cons|].
  rewrite <- app_comm_cons, sections_text_cons.
  unfold text_before. cbn [fmap list_fmap mjoin list_join fst snd].
  rewrite <- !app_assoc. do 2 f_equal.
  destruct before; cbn [app text_behind]; cbn [app] in IH; by rewrite IH.
Qed.

Lemma label_emoji sec : ∃ l, label sec = emoji sec :: l.
Proof. destruct sec; by eexists. Qed.

Lemma is_emoji_false c sec : is_emoji c = false → c ≠ emoji sec.
Proof.
  unfold is_emoji. cbn [existsb]. rewrite !orb_false_iff.
  intros (H1 & H2 & H3 & H4 & H5 & _) ->.
  destruct sec; by rewrite N.eqb_refl in *.
Qed.

Lemma content_ok_no_emoji sec content sec' :
  content_ok (sec, content) = true → emoji sec' ∉ content.
Proof.
  unfold content_ok. rewrite !andb_true_iff. intros [[[_ Hall] _] _] Hin.
  rewrite forallb_forall in Hall. apply list_elem_of_In, Hall in Hin.
  apply negb_true_iff in Hin. by apply (is_emoji_false _ sec') in Hin.
Qed.

Lemma emoji_not_in_other_label sec sec' : sec ≠ sec' → emoji sec ∉ label sec'.
Proof. destruct sec, sec'; intros Hne; try done; compute_done. Qed.

Lemma emoji_not_in_text_before sec before :
  Forall (λ item, item.1 ≠ sec) before →
  forallb content_ok before = true →
  emoji sec ∉ text_before before.
Proof.
  induction 1 as [|[s0 c0] before Hs0 _ IH]; intros Hok; [apply not_elem_of_nil|].
  cbn [forallb] in Hok. apply andb_true_iff in Hok as [Hok0 Hok].
  unfold text_before. cbn [fmap list_fmap mjoin list_join fst snd].
  rewrite !elem_of_app. intros [[Hin|[Hin|Hin]]|Hin].
  - by apply (emoji_not_in_other_label sec s0) in Hin.
  - by apply (content_ok_no_emoji s0 c0 sec) in Hin.
  - apply list_elem_of_singleton in Hin. by destruct sec.
  - by apply IH in Hin.
Qed.

Lemma pattern_needs_emoji sec (s : pystr) :
  emoji sec ∉ s → ∀ k, match_here (pattern sec) (drop k s) = None.
Proof.
  intros Hno k. apply pattern_needs_label.
  destruct (label_emoji sec) as [l ->].
  destruct (drop k s) as [|a s'] eqn:E; [done|]. cbn [startswith].
  assert (a ∈ s) as Ha.
  { apply (subseteq_drop k). rewrite E. apply elem_of_cons. by left. }
  assert (emoji sec ≠ a) as Hne by (by intros <-).
  apply N.eqb_neq in Hne. by rewrite Hne.
Qed.

Lemma search_needs_emoji sec (s : pystr) :
  emoji sec ∉ s → captured sec s = None.
Proof.
  intros Hno. unfold captured, component, search.
  assert (∀ pos, search_from (pattern sec) pos s = None) as ->; [|done].
  induction s as [|a s IH]; intros pos;
    pose proof (pattern_needs_emoji sec _ Hno 0) as H0; rewrite drop_0 in H0;
    cbn [search_from]; rewrite H0; [done|].
  apply IH. by apply not_elem_of_cons in Hno as [_ ?].
Qed.

(** Stops of the lazy patterns need a newline followed by an emoji, or
    the end of the text; those of the fix and of the prevention tip need a
    newline. *)
Lemma no_stop_without_emoji sec (a d : char) (s : pystr) :
  sec ≠ Fix → sec ≠ Prevention → is_emoji d = false →
  at_stop sec (a :: d :: s) = false.
Proof.
  intros Hf Hp Hd.
  pose proof (is_emoji_false d Fix Hd) as H1%N.eqb_neq.
  pose proof (is_emoji_false d Explanation Hd) as H2%N.eqb_neq.
  pose proof (is_emoji_false d Risk Hd) as H3%N.eqb_neq.
  pose proof (is_emoji_false d Prevention Hd) as H4%N.eqb_neq.
  rewrite N.eqb_sym in H1, H2, H3, H4. cbn [emoji] in *.
  destruct sec; try done; cbn [at_stop stops existsb startswith at_end tools books
    warning lock]; rewrite ?H1, ?H2, ?H3, ?H4, ?andb_false_r; done.
Qed.

Lemma no_stop_at_last sec (a : char) :
  a ≠ LF → at_stop sec [a] = false.
Proof.
  intros Ha%N.eqb_neq. pose proof Ha as Ha'. rewrite N.eqb_sym in Ha'.
  destruct sec; cbn [at_stop stops existsb startswith at_end tools books warning
    lock]; rewrite ?Ha, ?Ha', ?andb_false_r; done.
Qed.

Lemma no_stop_without_newline sec (a : char) (s : pystr) :
  sec = Fix ∨ sec = Prevention → a ≠ LF → at_stop sec (a :: s) = false.
Proof.
  intros Hsec Ha%N.eqb_neq. pose proof Ha as Ha'. rewrite N.eqb_sym in Ha'.
  destruct Hsec as [-> | ->]; cbn [at_stop stops existsb startswith at_end];
    rewrite ?Ha, ?Ha'; [done|]. by destruct s.
Qed.

Lemma runs_on_quiet sec (b rest : pystr) :
  sec ≠ Fix → sec ≠ Prevention →
  forallb (λ c, negb (is_emoji c)) b = true →
  match rest with
  | [] => b = [] ∨ last b ≠ Some LF
  | d :: _ => is_emoji d = false
  end →
  runs_on sec b rest = true.
Proof.
  intros Hf Hp. induction b as [|a b IH]; intros Hb Hrest; [done|].
  cbn [forallb] in Hb. apply andb_true_iff in Hb as [_ Hb].
  cbn [runs_on]. apply andb_true_iff. split.
  - apply negb_true_iff. rewrite <- app_comm_cons.
    destruct b as [|d b]; cbn [app].
    + destruct rest as [|d rest]; [|by apply no_stop_without_emoji].
      apply no_stop_at_last. destruct Hrest as [?|Hl]; [done|].
      intros ->. by apply Hl.
    + cbn [forallb] in Hb. apply andb_true_iff in Hb as [Hd _].
      apply negb_true_iff in Hd. by apply no_stop_without_emoji.
  - apply IH; [done|]. destruct rest as [|d rest]; [|done].
    destruct b as [|d b]; [by left|right].
    destruct Hrest as [?|Hl]; [done|]. by rewrite last_cons_cons in Hl.
Qed.

Lemma runs_on_one_line sec (b rest : pystr) :
  sec = Fix ∨ sec = Prevention →
  forallb (not_one LF) b = true → runs_on sec b rest = true.
Proof.
  intros Hsec. induction b as [|a b IH]; [done|]. cbn [forallb runs_on].
  intros [Ha Hb]%andb_true_iff. apply andb_true_iff. split; [|by apply IH].
  apply negb_true_iff. rewrite <- app_comm_cons.
  apply no_stop_without_newline; [done|].
  unfold not_one in Ha. apply negb_true_iff in Ha. by apply N.eqb_neq.
Qed.

Lemma text_behind_cases sec after :
  forallb (λ item, rank sec <? rank item.1) after = true →
  text_behind after = [] ∨
  ∃ sec' y, rank sec < rank sec' ∧ text_behind after = LF :: label sec' ++ y.
Proof.
  destruct after as [|[sec' c'] after]; [by left|]. right.
  cbn [forallb fst] in H. apply andb_true_iff in H as [Hr%Nat.ltb_lt _].
  exists sec', (c' ++ text_behind after). split; [done|].
  unfold text_behind at 1. by rewrite sections_text_cons.
Qed.

Lemma at_stop_behind sec sec' (y : pystr) :
  rank sec < rank sec' → at_stop sec (LF :: label sec' ++ y) = true.
Proof. destruct sec, sec'; cbn [rank]; intros Hr; try lia; reflexivity. Qed.

(** A well-formed content is what its pattern reads in the synthetic
    answer. *)
Lemma delimited_in_text sec content after :
  content_ok (sec, content) = true →
  forallb (λ item, rank sec <? rank item.1) after = true →
  delimited sec content (text_behind after) = true.
Proof.
  unfold content_ok. rewrite !andb_true_iff.
  intros [[[Hne Hemo] Hlast] Hline] Hafter.
  destruct content as [|c0 b]; [done|]. clear Hne.
  apply negb_true_iff, bool_decide_eq_false in Hlast.
  cbn [forallb] in Hemo. apply andb_true_iff in Hemo as [_ Hemo].
  unfold delimited. rewrite !andb_true_iff.
  destruct (text_behind_cases sec after Hafter) as [-> | (sec' & y & Hr & ->)].
  - split; [split|].
    + destruct sec; try done. cbn [forallb] in Hline.
      apply andb_true_iff in Hline as [[Hlf _]%andb_true_iff Hbt].
      unfold not_one in Hlf. unfold first_ok. by rewrite Hbt, Hlf.
    + destruct (decide (sec = Fix ∨ sec = Prevention)) as [Hsec|Hsec].
      * apply runs_on_one_line; [done|].
        destruct Hsec as [-> | ->]; cbn [forallb] in Hline;
          rewrite ?andb_true_iff in Hline; tauto.
      * apply runs_on_quiet; [tauto|tauto|done|].
        destruct b as [|d b]; [by left|right]. by rewrite last_cons_cons in Hlast.
    + by destruct sec.
  - split; [split|].
    + destruct sec; try done. cbn [forallb] in Hline.
      apply andb_true_iff in Hline as [[Hlf _]%andb_true_iff Hbt].
      unfold not_one in Hlf. unfold first_ok. by rewrite Hbt, Hlf.
    + destruct (decide (sec = Fix ∨ sec = Prevention)) as [Hsec|Hsec].
      * apply runs_on_one_line; [done|].
        destruct Hsec as [-> | ->]; cbn [forallb] in Hline;
          rewrite ?andb_true_iff in Hline; tauto.
      * apply runs_on_quiet; [tauto|tauto|done|]. reflexivity.
    + by apply at_stop_behind.
Qed.

Lemma list_find_split {A} (f : A → bool) (l : list A) :
  match List.find f l with
  | Some x => ∃ before after,
      l = before ++ x :: after ∧ Forall (λ y, f y = false) before ∧ f x = true
  | None => Forall (λ y, f y = false) l
  end.
Proof.
  induction l as [|a l IH]; cbn [List.find]; [constructor|].
  destruct (f a) eqn:E.
  - exists [], l. by repeat split.
  - destruct (List.find f l) as [x|].
    + destruct IH as (before & after & -> & Hb & Hx).
      exists (a :: before), after. repeat split; [|done]. by constructor.
    + by constructor.
Qed.

Lemma canonical_app_inv before sec content after :
  canonical (before ++ (sec, content) :: after) = true →
  forallb (λ item, rank sec <? rank item.1) after = true.
Proof.
  induction before as [|[s0 c0] before IH]; cbn [app canonical].
  - by intros [? _]%andb_true_iff.
  - intros [_ H]%andb_true_iff. by apply IH.
Qed.

Lemma sections_text_chars (items : list (section * pystr)) (c : char) :
  c ∈ sections_text items → c ∈ text_before items.
Proof.
  induction items as [|[s0 c0] items IH]; [done|].
  rewrite sections_text_cons. unfold text_before.
  cbn [fmap list_fmap mjoin list_join fst snd]. rewrite !elem_of_app.
  intros [?|[?|Hin]]; [tauto|tauto|].
  destruct items as [|item items]; [by apply elem_of_nil in Hin|].
  unfold text_behind in Hin. apply elem_of_cons in Hin as [->|Hin].
  - left. right. right. apply list_elem_of_singleton. done.
  - right. by apply IH.
Qed.

(** Every section of the synthetic answer is captured as written, and a
    section that was left out is not captured at all. *)
Lemma captured_in_text (items : list (section * pystr)) (sec : section) :
  canonical items = true → forallb content_ok items = true →
  captured sec (sections_text items) = content_of sec items.
Proof.
  intros Hcan Hok. unfold content_of.
  pose proof (list_find_split (λ item : section * pystr, bool_decide (item.1 = sec))
                items) as Hfind.
  destruct (List.find _ items) as [[sec' content]|]; cbn [fmap option_fmap option_map snd].
  - destruct Hfind as (before & after & -> & Hbefore & Hsec).
    apply bool_decide_eq_true in Hsec. cbn [fst] in Hsec. subst sec'.
    rewrite forallb_app in Hok. apply andb_true_iff in Hok as [Hokb Hok].
    cbn [forallb] in Hok. apply andb_true_iff in Hok as [Hokc _].
    pose proof (canonical_app_inv _ _ _ _ Hcan) as Hafter.
    pose proof (delimited_in_text sec content after Hokc Hafter) as Hdel.
    destruct content as [|c0 b]; [done|].
    destruct (match_behind_label sec c0 b (text_behind after) Hdel) as (g & Hm & Hg).
    rewrite sections_text_split.
    unfold captured, component, search. rewrite search_from_skip.
    + rewrite (search_from_here _ _ _ (text_behind after) g); [exact Hg|exact Hm].
    + intros k Hk. rewrite drop_app_le by lia.
      destruct (drop k (text_before before)) as [|a s'] eqn:E.
      { apply (f_equal length) in E. rewrite length_drop in E. simpl in E. lia. }
      apply pattern_needs_label. destruct (label_emoji sec) as [l ->].
      cbn [app startswith].
      assert (a ∈ text_before before) as Ha.
      { apply (subseteq_drop k). rewrite E. apply elem_of_cons. by left. }
      assert (emoji sec ≠ a) as Hne.
      { intros <-. revert Ha. apply emoji_not_in_text_before; [|done].
        eapply Forall_impl; [exact Hbefore|]. intros item Hi.
        by apply bool_decide_eq_false in Hi. }
      apply N.eqb_neq in Hne. by rewrite Hne.
  - apply search_needs_emoji. intros Hin%sections_text_chars.
    revert Hin. apply emoji_not_in_text_before; [|done].
    eapply Forall_impl; [exact Hfind|]. intros item Hi.
    by apply bool_decide_eq_false in Hi.
Qed.

(** X12. Round trip.  Take thinking blocks that hold no closing marker,
    followed by sections in the order of the patterns (any of the five may
    be left out) whose contents are well formed, and let the text of the
    sections not hold both markers [<think>] and [</think>], so that it
    does not restart the loop.  Then parsing gives back the trimmed blocks
    in order and each section's content as written; a section that was
    left out is absent. *)
Theorem parser_round_trip (ts : list pystr) (items : list (section * pystr)) :
  forallb (λ t, negb (contains think_close t)) ts = true →
  canonical items = true →
  forallb content_ok items = true →
  think_test (sections_text items) = false →
  parse_response (thoughts_text ts ++ sections_text items) =
    {| thoughts := strip <$> ts;
       cause := content_of Cause items;
       fix_ := content_of Fix items;
       explanation := content_of Explanation items;
       risk := content_of Risk items;
       prevention := content_of Prevention items |}.
Proof.
  intros Hts Hcan Hok Htail. unfold parse_response.
  rewrite (extract_thoughts_blocks ts [] (sections_text items)); [|  |done].
  - unfold sections_of. by rewrite !captured_in_text.
  - apply Forall_forall. intros t Ht. rewrite forallb_forall in Hts.
    apply list_elem_of_In, Hts in Ht. by apply negb_true_iff.
Qed.

End RoundTrip.

Lemma parser_round_trip_witness :
  parse_response
    (thoughts_text [str " the path is wrong "; str "check <think> too"] ++
     sections_text
       [(Cause, str "no such directory" ++ [LF] ++ str "under /srv");
        (Fix, str "mkdir -p /srv/data");
        (Prevention, str "create the directory first")]) =
    {| thoughts := [str "the path is wrong"; str "check <think> too"];
       cause := Some (str "no such directory" ++ [LF] ++ str "under /srv");
       fix_ := Some (str "mkdir -p /srv/data");
       explanation := None;
       risk := None;
       prevention := Some (str "create the directory first") |}.
Proof.
  apply (parser_round_trip
           [str " the path is wrong "; str "check <think> too"]
           [(Cause, str "no such directory" ++ [LF] ++ str "under /srv");
            (Fix, str "mkdir -p /srv/data");
            (Prevention, str "create the directory first")]);
    vm_compute; reflexivity.
Defined.

(** ** What the extraction loop keeps *)
Section ThoughtInvariants.

Lemma extract_thoughts_keeps (acc : list pystr) (s : pystr) :
  ∃ new,
    (extract_thoughts acc s).1 = acc ++ new ∧
    Forall (λ t, strip t = t) new ∧
    (extract_thoughts acc s).2 `suffix_of` s ∧
    8 * length new + length (extract_thoughts acc s).2 ≤ length s.
Proof.
  remember (length s) as n eqn:Hn. revert acc s Hn.
  induction n as [n IH] using lt_wf_ind. intros acc s ->.
  rewrite extract_thoughts_loop. destruct (think_test s) eqn:Ht.
  - pose proof (think_body_shrinks acc s Ht) as Hshrink.
    rewrite (think_body_advances acc s Ht) in *. cbn [fst snd] in *.
    set (t := strip (slice s _ _)) in *. set (s' := drop _ s) in *.
    destruct (IH (length s') ltac:(lia) (acc ++ [t]) s' eq_refl)
      as (new & Hnew & Hall & Hsuf & Hlen).
    exists (t :: new). rewrite Hnew, <- app_assoc. split; [done|].
    split; [constructor; [apply strip_idem|done]|].
    split; [etrans; [exact Hsuf|apply suffix_drop]|].
    cbn [length]. lia.
  - exists []. cbn [fst snd length]. rewrite app_nil_r.
    split; [done|]. split; [apply Forall_nil_2|]. split; [done|lia].
Qed.

(** X13. Whatever the answer is, every thought the loop records is
    trimmed, the text handed on to the section patterns is a suffix of the
    answer, and there are at most [len(answer) / 8] thoughts: eight
    characters of the answer are used up for each. *)
Theorem extract_thoughts_invariants (solution : pystr) :
  Forall (λ t, strip t = t) (extract_thoughts [] solution).1 ∧
  (extract_thoughts [] solution).2 `suffix_of` solution ∧
  8 * length (extract_thoughts [] solution).1 +
    length (extract_thoughts [] solution).2 ≤ length solution.
Proof.
  destruct (extract_thoughts_keeps [] solution) as (new & Hnew & Hall & Hsuf & Hlen).
  cbn [app] in Hnew. by rewrite Hnew.
Qed.

End ThoughtInvariants.

(** ** The merged error output *)
Section ErrorOutput.
Context `{B : Builtins}.

Lemma rstrip_last (s : pystr) (c : char) :
  last (rstrip s) = Some c → isspace c = false.
Proof.
  unfold rstrip. rewrite last_reverse. intros H%head_Some. destruct H as [t Ht].
  by eapply lstrip_head.
Qed.

Lemma strip_trimmed (s : pystr) :
  (∀ c, head (strip s) = Some c → isspace c = false) ∧
  (∀ c, last (strip s) = Some c → isspace c = false).
Proof.
  split; intros c Hc.
  - rewrite <- strip_idem in Hc. unfold strip in Hc at 1.
    destruct (rstrip_prefix (lstrip (strip s))) as [k Hk].
    apply head_Some in Hc as [t Ht]. rewrite Ht in Hk.
    by eapply lstrip_head.
  - unfold strip in Hc. by eapply rstrip_last.
Qed.

(** X14. [_get_full_error_output] can only fail while decoding a stream of
    bytes: for streams that are strings or absent it returns a text, and
    the text it returns never starts or ends with a whitespace character.
    Without any captured stream the text is empty. *)
Theorem error_output_trimmed (result : CompletedProcess) :
  ((∀ b, stderr result ≠ PBytes b) → (∀ b, stdout result ≠ PBytes b) →
   ∃ text, get_full_error_output result = Ok text) ∧
  (∀ text, get_full_error_output result = Ok text →
     (∀ c, head text = Some c → isspace c = false) ∧
     (∀ c, last text = Some c → isspace c = false)) ∧
  (stderr result = PNone → stdout result = PNone →
   get_full_error_output result = Ok []).
Proof.
  unfold get_full_error_output. split; [|split].
  - intros He Ho.
    destruct (stderr result) as [|e|b], (stdout result) as [|o|b'];
      try (by edestruct He); try (by edestruct Ho);
      cbn [pipe_truthy pipe_text]; destruct_all pystr;
      cbn [nonempty mbind outcome_bind]; eauto.
  - intros text Htext.
    assert (∃ raw, text = sanitize raw) as [raw ->]; [|apply strip_trimmed].
    destruct (pipe_truthy (stderr result)), (pipe_truthy (stdout result));
      cbn [mbind outcome_bind] in Htext;
      repeat (match type of Htext with
              | context [pipe_text ?p] =>
                  destruct (pipe_text p); cbn [mbind outcome_bind] in Htext
              end); try discriminate; injection Htext as <-; eauto.
  - intros -> ->. reflexivity.
Qed.

End ErrorOutput.

(** ** The panels of the analysis *)
Section Rendering.
Context `{B : Builtins}.

(** Matching only adds groups. *)
Lemma run_keeps_groups (r : regex) : ∀ s g rest g' i,
  (rest, g') ∈ run r s g → is_Some (g !! i) → is_Some (g' !! i).
Proof.
  induction r as [l|p|gr lo hi p|r1 IH1 r2 IH2|r1 IH1 r2 IH2|j r1 IH1|r1 IH1|];
    intros s g rest g' i Hin Hi; cbn [run] in Hin.
  - destruct (startswith l s); [|inversion Hin].
    apply list_elem_of_singleton in Hin. by injection Hin as -> ->.
  - destruct s as [|c s']; [inversion Hin|].
    destruct (p c); [|inversion Hin].
    apply list_elem_of_singleton in Hin. by injection Hin as -> ->.
  - apply list_elem_of_fmap in Hin as (x & [= -> ->] & _). done.
  - apply list_elem_of_bind in Hin as ([s1 g1] & H2 & H1). eauto.
  - apply elem_of_app in Hin as [H|H]; eauto.
  - apply list_elem_of_fmap in Hin as ([s1 g1] & [= -> ->] & H1).
    apply lookup_insert_is_Some'. right. eauto.
  - destruct (run r1 s g) as [|[x g1] t] eqn:E; [inversion Hin|].
    apply list_elem_of_singleton in Hin. injection Hin as -> ->.
    eapply IH1; [|done]. rewrite E. left.
  - destruct s as [|c [|c' s']]; try (by inversion Hin).
    + apply list_elem_of_singleton in Hin. by injection Hin as -> ->.
    + destruct (c =? LF)%N; [|inversion Hin].
      apply list_elem_of_singleton in Hin. by injection Hin as -> ->.
Qed.

Lemma pattern_sets_group_one sec s rest g :
  (rest, g) ∈ run (pattern sec) s ∅ → is_Some (g !! 1).
Proof.
  intros Hin.
  assert (∃ r1 r2, pattern sec = (Lit (label sec) >> Group 1 r1 >> r2)%re ∨
                   pattern sec = (Lit (label sec) >> Group 1 r1)%re)
    as (r1 & r2 & [Hp|Hp]).
  { destruct sec; cbn [pattern];
      first [by eexists _, _; left | by eexists _, Eos; right]. }
  - rewrite Hp in Hin. cbn [run] in Hin.
    apply list_elem_of_bind in Hin as ([s1 g1] & Hin & _).
    apply list_elem_of_bind in Hin as ([s2 g2] & Hin & Hgrp).
    apply list_elem_of_fmap in Hgrp as ([s3 g3] & [= -> ->] & _).
    eapply run_keeps_groups; [exact Hin|]. rewrite lookup_insert_eq. eauto.
  - rewrite Hp in Hin. cbn [run] in Hin.
    apply list_elem_of_bind in Hin as ([s1 g1] & Hgrp & _).
    apply list_elem_of_fmap in Hgrp as ([s3 g3] & [= -> ->] & _).
    rewrite lookup_insert_eq. eauto.
Qed.

(** Every match of one of the five patterns has its group 1: the tests
    [if components[sec]] and the uses of [group(1)] that follow agree. *)
Lemma group_one_participates sec (s : pystr) (m : rmatch) :
  component sec s = Some m → is_Some (group m 1).
Proof.
  unfold component, search.
  cut (∀ pos, search_from (pattern sec) pos s = Some m → is_Some (group m 1));
    [by eauto|].
  assert (∀ s' rest g, match_here (pattern sec) s' = Some (rest, g) →
            is_Some (g !! 1)) as Hhere.
  { intros s' rest g E. unfold match_here in E. apply head_Some in E as [t Ht].
    eapply (pattern_sets_group_one sec s' rest g). rewrite Ht. left. }
  induction s as [|c s IH]; intros pos Hm; cbn [search_from] in Hm;
    destruct (match_here (pattern sec) _) as [[rest g]|] eqn:E.
  - injection Hm as <-. by eapply Hhere.
  - done.
  - injection Hm as <-. by eapply Hhere.
  - by eapply IH.
Qed.

Lemma captured_iff_component sec (s : pystr) :
  is_Some (captured sec s) ↔ is_Some (component sec s).
Proof.
  unfold captured. destruct (component sec s) as [m|] eqn:E; cbn.
  - split; [eauto|]. intros _. by eapply group_one_participates.
  - split; intros []; done.
Qed.

(** What is printed is an initial part of the calls, all of them when
    nothing is raised. *)
Lemma print_all_prefix console (items : list printed) :
  (print_all console items).1 `prefix_of` items.
Proof.
  induction items as [|p items IH]; cbn [print_all]; [done|].
  destruct (console p); [apply prefix_nil|].
  destruct (print_all console items) as [shown e]. by apply prefix_cons.
Qed.

Lemma print_all_complete console (items : list printed) :
  (print_all console items).2 = None → (print_all console items).1 = items.
Proof.
  induction items as [|p items IH]; cbn [print_all]; [done|].
  destruct (console p); [done|].
  destruct (print_all console items) as [shown e]. cbn in *.
  intros He. by rewrite IH.
Qed.

Lemma print_all_accepted console (items : list printed) :
  Forall (λ p, console p = None) (print_all console items).1.
Proof.
  induction items as [|p items IH]; cbn [print_all]; [constructor|].
  destruct (console p) eqn:E; [constructor|].
  destruct (print_all console items) as [shown e]. by constructor.
Qed.

(** A call is carried out unless an earlier one, or the call itself,
    raises. *)
Lemma print_all_reaches console (pre : list printed) (x : printed) post :
  x ∈ (print_all console (pre ++ x :: post)).1 ∨
  (is_Some (print_all console (pre ++ x :: post)).2 ∧
   (print_all console (pre ++ x :: post)).1 `prefix_of` pre).
Proof.
  induction pre as [|p pre IH]; cbn [app print_all].
  - destruct (console x); [right; split; [eauto|done]|].
    destruct (print_all console post) as [shown e]. left. cbn. left.
  - destruct (console p); [right; split; [eauto|apply prefix_nil]|].
    destruct (print_all console (pre ++ x :: post)) as [shown e]. cbn in *.
    destruct IH as [Hin|[He Hpre]]; [left; by right|right].
    split; [done|by apply prefix_cons].
Qed.

Lemma manual_panels_prefix (l1 l2 : list printed) :
  l1 `prefix_of` l2 → manual_panels l1 `prefix_of` manual_panels l2.
Proof.
  intros [k ->]. unfold manual_panels. rewrite bind_app. by eexists.
Qed.

Lemma analysis_prints_manual solution h rf me :
  manual_panels (analysis_prints solution h rf me) =
  if from_option nonempty false me
     && negb (contains (str "No manual entry") (default [] me))
  then [default [] me] else [].
Proof.
  unfold analysis_prints.
  destruct (extract_thoughts [] solution) as [ts remaining].
  generalize (captured Cause remaining) (captured Explanation remaining)
    (captured Fix remaining) (captured Risk remaining)
    (captured Prevention remaining).
  intros c1 c2 c3 c4 c5.
  destruct (from_option nonempty false me
            && negb (contains (str "No manual entry") (default [] me)));
    destruct (nonempty ts), (nonempty h), (from_option nonempty false rf),
      c1, c2, c3, c4, c5; reflexivity.
Qed.

(** The entries [_show_analysis] reads are those [_handle_error] wrote,
    unless the context passed in holds one of their names. *)
Lemma analysis_view_assembled self result context w error_context :
  context !! "history"%string = None →
  context !! "relevant_files"%string = None →
  context !! "man_excerpt"%string = None ∨ split (last_command self) ≠ [] →
  assemble_context self result context w = Ok error_context →
  analysis_view error_context =
  Some (history self, Some (get_relevant_files_from_history self),
        match split (last_command self) with
        | base_cmd :: _ => Some (get_man_page w base_cmd)
        | [] => None
        end).
Proof.
  intros Hh Hf Hm Hasm. unfold assemble_context in Hasm.
  destruct (get_full_error_output result) as [out|]; [|done].
  destruct (getcwd w) as [cwd|]; [|done].
  cbn [mbind outcome_bind] in Hasm. injection Hasm as <-.
  unfold analysis_view.
  destruct (split (last_command self)) as [|base_cmd parts].
  - destruct Hm as [Hm|]; [|done].
    rewrite !lookup_union_r by done.
    rewrite !lookup_insert_ne by done. rewrite lookup_insert_eq.
    rewrite !lookup_insert_ne by done. by rewrite lookup_singleton_eq.
  - rewrite lookup_insert_eq.
    rewrite !lookup_insert_ne by done.
    rewrite !lookup_union_r by done.
    rewrite !lookup_insert_ne by done. rewrite lookup_insert_eq.
    rewrite !lookup_insert_ne by done. by rewrite lookup_singleton_eq.
Qed.






(** X15. The manual panel, by the outcome of running the shell pipeline
    [man <first word> 2>/dev/null | col -b].  When the context of a
    command with a first word is assembled and rendered, the context row
    handed to [console.print] holds no manual panel if the pipeline returns
    a code other than 0, and none if it returns 0 without any output (what
    is left when [man] writes no page); if running the pipeline raises, the
    row holds a manual panel with the text [Error retrieving manual page].
    What is printed holds an initial part of these panels, and all of them
    when [console.print] does not raise. *)
Theorem manual_panel_on_failure (console : printed → option exn)
    (self : ErrorInterceptor)
    (result : CompletedProcess) (context error_context : gmap string pyval)
    (w : World) (base_cmd : pystr) (parts : list pystr) (solution : pystr) :
  split (last_command self) = base_cmd :: parts →
  context !! "history"%string = None →
  context !! "relevant_files"%string = None →
  assemble_context self result context w = Ok error_context →
  ∃ calls,
    calls = analysis_prints solution (history self)
              (Some (get_relevant_files_from_history self))
              (Some (get_man_page w base_cmd)) ∧
    render console solution error_context = Some (print_all console calls) ∧
    match run_captured w (str "man " ++ base_cmd ++ str " 2>/dev/null | col -b") with
    | Raised _ => manual_panels calls = [str "Error retrieving manual page"]
    | Ok r => (c_returncode r ≠ 0%Z → manual_panels calls = []) ∧
              (c_stdout r = [] → manual_panels calls = [])
    end ∧
    manual_panels (print_all console calls).1 `prefix_of` manual_panels calls ∧
    ((print_all console calls).2 = None → (print_all console calls).1 = calls).
Proof.
  intros Hsplit Hh Hf Hasm. eexists. split; [reflexivity|].
  split.
  { unfold render.
    rewrite (analysis_view_assembled self result context w error_context Hh Hf);
      [by rewrite Hsplit| |done].
    right. by rewrite Hsplit. }
  split; [|split; [apply manual_panels_prefix, print_all_prefix
                  |apply print_all_complete]].
  rewrite analysis_prints_manual. unfold get_man_page.
  destruct (run_captured w _) as [r|e]; cbn [mbind outcome_bind try_except];
    [|reflexivity].
  split.
  - intros Hcode. apply Z.eqb_neq in Hcode. rewrite Hcode. reflexivity.
  - intros Hout. destruct (c_returncode r =? 0)%Z; [|reflexivity].
    rewrite Hout. cbn [split_on scan_manual app length Nat.ltb Nat.leb].
    by destruct (is_header []).
Qed.

(** X16. An answer in which none of the five emoji occurs is rendered
    without a diagnosis, a recommended fix or additional information:
    only the heading, the thoughts and the context row are handed to
    [console.print], and so nothing else is printed. *)
Theorem no_emoji_no_section_panels (console : printed → option exn)
    (solution : pystr) (h : list pystr)
    (rf : option (list pystr)) (me : option pystr) :
  (∀ sec, emoji sec ∉ solution) →
  Forall (λ p, is_section_panel p = false) (analysis_prints solution h rf me) ∧
  Forall (λ p, is_section_panel p = false)
         (show_analysis console solution h rf me).1.
Proof.
  intros Hno.
  assert (Forall (λ p, is_section_panel p = false)
                 (analysis_prints solution h rf me)) as Hall.
  { unfold analysis_prints.
    destruct (extract_thoughts_keeps [] solution) as (new & _ & _ & Hsuf & _).
    destruct (extract_thoughts [] solution) as [ts remaining]. cbn [snd] in Hsuf.
    assert (∀ sec, captured sec remaining = None) as Hnone.
    { intros sec. apply search_needs_emoji. intros Hin. apply (Hno sec).
      destruct Hsuf as [k ->]. apply elem_of_app. by right. }
    rewrite !Hnone. cbn [block_of app nonempty].
    repeat match goal with |- context [if ?b then _ else _] => destruct b end;
      repeat constructor. }
  split; [done|]. unfold show_analysis.
  destruct (print_all_prefix console (analysis_prints solution h rf me)) as [k Hk].
  rewrite Hk in Hall. by apply Forall_app in Hall as [? _].
Qed.

(** X17. After a submission through either entry point of an interceptor
    created by [__init__], the context row handed to [console.print]
    starts with the panel of recent commands: it shows at most three
    commands, the last commands of the history, and its last line is the
    command just submitted.  The row is printed unless [console.print]
    raises for it or before it; in that case nothing is printed but the
    heading and the thoughts. *)
Theorem recent_commands_panel (console : printed → option exn)
    (evs : list submission) (ev : submission)
    (solution : pystr) (rf : option (list pystr)) (me : option pystr) :
  let self := submit (submit_all init evs) ev in
  let shown := show_analysis console solution (history self) rf me in
  ∃ earlier others,
    let row :=
      ContextColumns
        (RecentCommands (dim_lines (earlier ++ [submitted ev])) :: others) in
    row ∈ analysis_prints solution (history self) rf me ∧
    length earlier ≤ 2 ∧
    (earlier ++ [submitted ev]) `suffix_of` history self ∧
    (row ∈ shown.1 ∨
     (is_Some shown.2 ∧
      Forall (λ p, p = Heading ∨ ∃ text, p = CognitiveProcess text) shown.1)).
Proof.
  cbv zeta. set (self := submit (submit_all init evs) ev).
  destruct (submit_all_invariant evs init 19) as (Hm & Hlen & _);
    [done|cbn; lia|].
  destruct (submit_invariant (submit_all init evs) ev 19 Hm Hlen)
    as (_ & _ & Hlast).
  fold self in Hlast. apply last_Some in Hlast as [front Hhist].
  exists (lastn 2 front).
  assert (lastn 3 (history self) = lastn 2 front ++ [submitted ev]) as H3.
  { rewrite Hhist. unfold lastn. rewrite length_app. cbn [length].
    rewrite drop_app_le by lia. f_equal. f_equal. lia. }
  assert (nonempty (history self) = true) as Hne.
  { rewrite Hhist. by destruct front. }
  unfold show_analysis, analysis_prints.
  destruct (extract_thoughts [] solution) as [ts remaining].
  rewrite H3, Hne. cbn [app nonempty].
  match goal with
  | |- context [print_all console (Heading :: ?th ++ ContextColumns (_ :: ?o) :: ?post)] =>
      exists o; pose proof (print_all_reaches console (Heading :: th)
                              (ContextColumns
                                 (RecentCommands
                                    (dim_lines (lastn 2 front ++ [submitted ev])) :: o))
                              post) as Hreach
  end.
  split; [|split; [|split]].
  - apply elem_of_cons. right. apply elem_of_app. right.
    apply elem_of_cons. by left.
  - unfold lastn. rewrite length_drop. lia.
  - rewrite Hhist. apply suffix_app. unfold lastn. apply suffix_drop.
  - cbn [app] in Hreach. destruct Hreach as [Hin|[He Hpre]]; [by left|right].
    split; [done|]. destruct Hpre as [k Hk].
    assert (Forall (λ p, p = Heading ∨ ∃ text, p = CognitiveProcess text)
                   (Heading :: (if nonempty ts
                                then [CognitiveProcess (dim_lines ts)] else [])))
      as Hall.
    { constructor; [by left|].
      destruct (nonempty ts); [constructor; [right; eauto|constructor]|constructor]. }
    rewrite Hk in Hall. by apply Forall_app in Hall as [? _].
Qed.

End Rendering.

Lemma manual_panel_on_failure_witness :
  let self := auto_analyze_record init (str "ls /nonexistent") in
  let result :=
    mkProcess (str "ls /nonexistent") 2 (PStr []) (PStr (str "ls: no such file")) in
  let w := {| environ := ∅; getcwd := Ok (str "/srv");
              listdir := λ _, Ok [];
              isfile := λ _, false;
              isdir := λ _, false;
              run_live := λ _, Ok 2%Z;
              run_captured := λ _, Raised PermissionError;
              check_output := λ _, Raised PermissionError;
              get_error_solution := λ _, Ok (Some (str "done")) |} in
  let console : printed → option exn := λ _, None in
  ∃ error_context calls,
    assemble_context (B := ascii_builtins) self result ∅ w = Ok error_context ∧
    render console (str "done") error_context = Some (calls, None) ∧
    manual_panels calls = [str "Error retrieving manual page"].
Proof.
  intros self result w console.
  assert (∃ c, assemble_context (B := ascii_builtins) self result ∅ w = Ok c)
    as [error_context Hasm].
  { eexists. vm_compute. reflexivity. }
  destruct (manual_panel_on_failure (B := ascii_builtins) console self result ∅
              error_context w (str "ls") [str "/nonexistent"] (str "done")
              eq_refl (lookup_empty _) (lookup_empty _) Hasm)
    as (calls & _ & Hrender & Hpanels & _ & Hall).
  exists error_context, calls. split; [exact Hasm|].
  assert ((print_all console calls).2 = None) as Hnone.
  { clear. induction calls as [|p calls IH]; [done|]. cbn.
    by destruct (print_all console calls). }
  split; [|exact Hpanels].
  rewrite Hrender. f_equal. rewrite <- (Hall Hnone) at 2. rewrite <- Hnone.
  by destruct (print_all console calls).
Defined.

Lemma no_emoji_no_section_panels_witness :
  let console : printed → option exn :=
    λ p, match p with ContextColumns _ => Some (OtherError "MarkupError") | _ => None end in
  let solution := str "<think>hm</think>Try again later." in
  Forall (λ p, is_section_panel p = false)
    (analysis_prints solution [str "ls [/x]"] (Some []) None) ∧
  Forall (λ p, is_section_panel p = false)
    (show_analysis console solution [str "ls [/x]"] (Some []) None).1.
Proof.
  intros console solution.
  apply no_emoji_no_section_panels. intros sec Hin.
  apply list_elem_of_In in Hin. destruct sec; vm_compute in Hin; intuition discriminate.
Defined.

(** ** One component on one line *)
Section PrintComponent.

Lemma strip_length (s : pystr) : length (strip s) ≤ length s.
Proof.
  unfold strip. etrans; [apply prefix_length, rstrip_prefix|].
  apply suffix_length, lstrip_suffix.
Qed.

Lemma replace_newlines_clean (text : pystr) : LF ∉ replace_newlines text.
Proof.
  unfold replace_newlines. intros (c & Hc & _)%list_elem_of_fmap.
  destruct (c =? LF)%N eqn:E; [done|]. apply N.eqb_neq in E. by subst.
Qed.

(** X18. [_print_component], given the result of searching an answer for
    one of the five sections, prints nothing when the section is missing
    and otherwise never raises: it prints one text made of the colour, a
    triangle, the label, a colon, a newline, three blanks, the cleaned
    text and the reset sequence, where the cleaned text is the captured
    text with each newline replaced by a blank and then trimmed.  The
    cleaned text holds no newline, is trimmed and is not longer than the
    captured text. *)
Theorem print_component_single_line (sec : section) (s color label : pystr) :
  match captured sec s with
  | None => print_component (component sec s) color label = Ok []
  | Some text =>
      let cleaned := strip (replace_newlines text) in
      print_component (component sec s) color label =
        Ok [color ++ [0x25B8%N] ++ str " " ++ label ++ str ":" ++ [LF] ++
            str "   " ++ cleaned ++ [ESC] ++ str "[0m"] ∧
      (LF ∉ cleaned) ∧ strip cleaned = cleaned ∧
      length cleaned ≤ length text
  end.
Proof.
  unfold captured. destruct (component sec s) as [m|] eqn:E; cbn [mbind option_bind];
    [|reflexivity].
  destruct (group_one_participates sec s m E) as [text Htext].
  rewrite Htext. cbn [print_component]. rewrite Htext.
  cbv zeta. split; [reflexivity|].
  split; [|split].
  - intros Hin%strip_elem_of. by apply replace_newlines_clean in Hin.
  - apply strip_idem.
  - etrans; [apply strip_length|]. unfold replace_newlines.
    by rewrite length_fmap.
Qed.

End PrintComponent.
